(** * SERD: the voxel engine of SERD.c, embedded and verified

    The C functions of [SERD.c] are translated one by one, under their own
    names.  The grid [int *grid] is a finite map from the flat index
    [k + nz * (j + ny * i)] to the tag stored there; C [double]s are the
    kernel's binary64 floats; the two globals [points] and [big] of the
    flood fill are threaded as explicit state.

    An [int] is an unbounded integer here: the counters [tag], [points],
    [aux] and [count] and the flat index stay within one of the number of
    voxels or of atoms, so that the arithmetic of the source does not
    overflow on a grid that an [int] can index.  The counters of the cube
    loops around an atom start from doubles: where such a bound is not
    within the range of [int] the C loops are undefined or do not end, and
    the definitions give the values of a run in which they are
    ([cube_in_int_range]); a statement that has such loops return for given
    atoms carries that condition, the others hold of whatever a run
    returns.  OpenMP regions are executed
    in the order of their loops, which is one of the schedules OpenMP may
    choose.  The parameters [xyzr], [ndims], [nvalues] and [verbose], which
    the computation does not use, and the progress lines written when
    [verbose] is set are left out. *)

From Stdlib Require Import ZArith List Bool Lia.
From Stdlib Require Import Floats Uint63.
From stdpp Require Import base option list strings gmap sorting.

Local Open Scope Z_scope.

(** ** Loops *)

(** [count_up lo n] is [lo; lo+1; ...; lo+n-1]: the values a C counter takes. *)
Fixpoint count_up (lo : Z) (n : nat) : list Z :=
  match n with
  | O => []
  | S n' => lo :: count_up (lo + 1) n'
  end.

(** [for (i = lo; i < hi; i++)] *)
Definition range (lo hi : Z) : list Z := count_up lo (Z.to_nat (hi - lo)).

(** Three nested counting loops whose bounds do not depend on each other,
    in the order in which the innermost body is reached. *)
Definition box (ilo ihi jlo jhi klo khi : Z) : list (Z * Z * Z) :=
  i ← range ilo ihi; j ← range jlo jhi; k ← range klo khi; [(i, j, k)].

(** The 3x3x3 cube [for (x = i - 1; x <= i + 1; x++) ...] around a voxel. *)
Definition cube (i j k : Z) : list (Z * Z * Z) :=
  box (i - 1) (i + 2) (j - 1) (j + 2) (k - 1) (k + 2).

(** A loop whose body may fail to return (it runs out of fuel). *)
Fixpoint for_each {S A : Type} (body : A → S → option S) (l : list A) (s : S) : option S :=
  match l with
  | [] => Some s
  | a :: l' =>
      match body a s with
      | Some s' => for_each body l' s'
      | None => None
      end
  end.

(** ** The voxel grid *)

(** [grid[p]]; a cell that was never written reads as 0. *)
Definition rd (g : gmap Z Z) (p : Z) : Z := default 0 (g !! p).

(** [grid[p] = v] *)
Definition wr (g : gmap Z Z) (p v : Z) : gmap Z Z := <[p := v]> g.

(** [k + nz * (j + (ny * i))] *)
Definition idx (ny nz i j k : Z) : Z := k + nz * (j + ny * i).

Definition in_grid (nx ny nz i j k : Z) : Prop :=
  0 ≤ i < nx ∧ 0 ≤ j < ny ∧ 0 ≤ k < nz.

(** The test of the neighbour loops:
    [x < 0 || y < 0 || z < 0 || x > nx - 1 || y > ny - 1 || z > nz - 1]. *)
Definition outside (nx ny nz x y z : Z) : bool :=
  (x <? 0) || (y <? 0) || (z <? 0) || (x >? nx - 1) || (y >? ny - 1) || (z >? nz - 1).

(** ** igrid *)

Definition igrid (g : gmap Z Z) (size : Z) : gmap Z Z :=
  foldl (fun g i => wr g i 1) g (range 0 size).

(** ** Doubles *)

(** Conversion of an [int] to [double] (exact). *)
Definition of_int (z : Z) : float :=
  if z <? 0 then (- of_uint63 (Uint63.of_Z (- z)))%float
  else of_uint63 (Uint63.of_Z z).

(** [pow(a, 2)] *)
Definition pow2 (a : float) : float := (a * a)%float.

(** [floor] followed by the conversion to [int] of the loop counter, for a
    double whose floor an [int] can hold: the integer itself.  Outside of
    that the conversion is undefined in C; the integer is kept here beyond
    the range of [int], and an infinity or a NaN is given 0, so that a
    statement about a run that has to end asks for [int_bound] below. *)
Definition floorZ (f : float) : Z :=
  match Prim2SF f with
  | S754_finite s m e =>
      let v := if s then Z.neg m else Z.pos m in
      if 0 <=? e then v * 2 ^ e else v / 2 ^ (- e)
  | _ => 0
  end.

(** [ceil], likewise. *)
Definition ceilZ (f : float) : Z :=
  match Prim2SF f with
  | S754_finite s m e =>
      let v := if s then Z.neg m else Z.pos m in
      if 0 <=? e then v * 2 ^ e else - ((- v) / 2 ^ (- e))
  | _ => 0
  end.

(** The range of an [int]. *)
Definition INT_MIN : Z := -2147483648.

Definition INT_MAX : Z := 2147483647.

(** A double that an [int] loop counter can start from, reach and step
    past: it is finite, its floor is at least [INT_MIN] and its ceiling at
    most [INT_MAX - 1].  For such a bound the conversions above are those of
    C, and [i++] does not overflow before [i <= bound] fails. *)
Definition int_bound (f : float) : bool :=
  match Prim2SF f with
  | S754_infinity _ | S754_nan => false
  | _ => (INT_MIN <=? floorZ f) && (ceilZ f <=? INT_MAX - 1)
  end.

(** [a[n]] for a [double *a]. *)
Definition dbl (a : list float) (n : Z) : float := nth (Z.to_nat n) a 0%float.

(** The conversion of the centre of atom [atom] to grid coordinates, written
    out twice in the source (in [fill] and in [_interface]). *)
Definition grid_coords (atoms reference sincos : list float) (step : float) (atom : Z)
  : float * float * float :=
  let x := ((dbl atoms (atom * 4) - dbl reference 0) / step)%float in
  let y := ((dbl atoms (1 + atom * 4) - dbl reference 1) / step)%float in
  let z := ((dbl atoms (2 + atom * 4) - dbl reference 2) / step)%float in
  let xaux := (x * dbl sincos 3 + z * dbl sincos 2)%float in
  let yaux := y in
  let zaux := ((- x) * dbl sincos 2 + z * dbl sincos 3)%float in
  (xaux,
   (yaux * dbl sincos 1 - zaux * dbl sincos 0)%float,
   (yaux * dbl sincos 0 + zaux * dbl sincos 1)%float).

(** [H = (probe + atoms[3 + (atom * 4)]) / step] *)
Definition reach (atoms : list float) (step probe : float) (atom : Z) : float :=
  ((probe + dbl atoms (3 + atom * 4)) / step)%float.

(** [sqrt(pow(i - x, 2) + pow(j - y, 2) + pow(k - z, 2))] *)
Definition distance (i j k : Z) (x y z : float) : float :=
  PrimFloat.sqrt (pow2 (of_int i - x) + pow2 (of_int j - y) + pow2 (of_int k - z))%float.

(** The voxels visited around a centre:
    [for (i = floor(x - H); i <= ceil(x + H); i++) ...], where the six bounds
    are within the range of the [int] counters ([cube_in_int_range] below);
    with a bound outside of it the C loops are undefined or do not end, and
    this list is no account of them. *)
Definition around (x y z H : float) : list (Z * Z * Z) :=
  box (floorZ (x - H)) (ceilZ (x + H) + 1)
      (floorZ (y - H)) (ceilZ (y + H) + 1)
      (floorZ (z - H)) (ceilZ (z + H) + 1).

(** The six bounds of the cube scanned around atom [atom], in [fill] and in
    [_interface], are within the range of the [int] counters: the loops
    around this atom are defined and end. *)
Definition cube_in_int_range (atoms reference sincos : list float) (step probe : float)
    (atom : Z) : bool :=
  let '(x, y, z) := grid_coords atoms reference sincos step atom in
  let H := reach atoms step probe atom in
  int_bound (x - H) && int_bound (x + H)
  && int_bound (y - H) && int_bound (y + H)
  && int_bound (z - H) && int_bound (z + H).


(** ** fill *)

Definition fill_voxel (nx ny nz : Z) (x y z H : float) (g : gmap Z Z) (v : Z * Z * Z)
  : gmap Z Z :=
  let '(i, j, k) := v in
  if (distance i j k x y z <? H)%float then
    if (i >=? 0) && (i <? nx) && (j >=? 0) && (j <? ny) && (k >=? 0) && (k <? nz)
    then wr g (idx ny nz i j k) 0
    else g
  else g.

Definition fill_atom (nx ny nz : Z) (atoms reference sincos : list float)
    (step probe : float) (g : gmap Z Z) (atom : Z) : gmap Z Z :=
  let '(x, y, z) := grid_coords atoms reference sincos step atom in
  let H := reach atoms step probe atom in
  foldl (fill_voxel nx ny nz x y z H) g (around x y z H).

Definition fill (g : gmap Z Z) (nx ny nz : Z) (atoms : list float) (natoms : Z)
    (reference sincos : list float) (step probe : float) : gmap Z Z :=
  foldl (fill_atom nx ny nz atoms reference sincos step probe) g (range 0 natoms).

(** ** ses *)

Definition check_protein_neighbours (g : gmap Z Z) (nx ny nz i j k : Z) : bool :=
  existsb (fun '(x, y, z) =>
             if outside nx ny nz x y z then false
             else (rd g (idx ny nz x y z) =? 0) || (rd g (idx ny nz x y z) =? -2))
          (cube i j k).

(** The body of the innermost loop of the first sweep, at [(i2, j2, k2)]. *)
Definition ses_probe (nx ny nz : Z) (step probe : float) (i j k : Z)
    (g : gmap Z Z) (w : Z * Z * Z) : gmap Z Z :=
  let '(i2, j2, k2) := w in
  if (i2 >? 0) && (j2 >? 0) && (k2 >? 0) && (i2 <? nx) && (j2 <? ny) && (k2 <? nz) then
    if (PrimFloat.sqrt (pow2 (of_int (i - i2)) + pow2 (of_int (j - j2))
                        + pow2 (of_int (k - k2))) <? probe / step)%float then
      if rd g (idx ny nz i2 j2 k2) =? 0 then wr g (idx ny nz i2 j2 k2) (-2) else g
    else g
  else g.

(** The body of the first sweep at the voxel [(i, j, k)]. *)
Definition ses_mark (nx ny nz : Z) (step probe : float) (aux : Z)
    (g : gmap Z Z) (v : Z * Z * Z) : gmap Z Z :=
  let '(i, j, k) := v in
  if rd g (idx ny nz i j k) =? 1 then
    if check_protein_neighbours g nx ny nz i j k then
      foldl (ses_probe nx ny nz step probe i j k) g
            (box (i - aux) (i + aux + 1) (j - aux) (j + aux + 1) (k - aux) (k + aux + 1))
    else g
  else g.

(** First sweep of [ses]; [aux = ceil(probe / step)]. *)
Definition ses_pass_a (g : gmap Z Z) (nx ny nz : Z) (step probe : float) : gmap Z Z :=
  let aux := ceilZ (probe / step) in
  foldl (ses_mark nx ny nz step probe aux) g (box 0 nx 0 ny 0 nz).

Definition ses_promote (ny nz : Z) (g : gmap Z Z) (v : Z * Z * Z) : gmap Z Z :=
  let '(i, j, k) := v in
  if rd g (idx ny nz i j k) =? -2 then wr g (idx ny nz i j k) 1 else g.

(** Second sweep of [ses]. *)
Definition ses_pass_b (g : gmap Z Z) (nx ny nz : Z) : gmap Z Z :=
  foldl (ses_promote ny nz) g (box 0 nx 0 ny 0 nz).

Definition ses (g : gmap Z Z) (nx ny nz : Z) (step probe : float) : gmap Z Z :=
  ses_pass_b (ses_pass_a g nx ny nz step probe) nx ny nz.

(** ** filter_surface *)

Definition define_surface_points (g : gmap Z Z) (nx ny nz i j k : Z) : Z :=
  if existsb (fun '(x, y, z) =>
                if outside nx ny nz x y z then false
                else rd g (idx ny nz x y z) =? 0)
             (cube i j k)
  then 1 else -1.

Definition surface_voxel (nx ny nz : Z) (g : gmap Z Z) (v : Z * Z * Z) : gmap Z Z :=
  let '(i, j, k) := v in
  if rd g (idx ny nz i j k) =? 1
  then wr g (idx ny nz i j k) (define_surface_points g nx ny nz i j k)
  else g.

Definition filter_surface (g : gmap Z Z) (nx ny nz : Z) : gmap Z Z :=
  foldl (surface_voxel nx ny nz) g (box 0 nx 0 ny 0 nz).

(** ** filter_noise_points *)

Definition remove_noise_points (g : gmap Z Z) (nx ny nz i j k : Z) : Z :=
  if existsb (fun '(x, y, z) =>
                if outside nx ny nz x y z then false
                else rd g (idx ny nz x y z) =? -1)
             (cube i j k)
  then 1 else 0.

Definition noise_voxel (nx ny nz : Z) (g : gmap Z Z) (v : Z * Z * Z) : gmap Z Z :=
  let '(i, j, k) := v in
  if rd g (idx ny nz i j k) =? 1
  then wr g (idx ny nz i j k) (remove_noise_points g nx ny nz i j k)
  else g.

Definition filter_noise_points (g : gmap Z Z) (nx ny nz : Z) : gmap Z Z :=
  foldl (noise_voxel nx ny nz) g (box 0 nx 0 ny 0 nz).

(** ** The flood fill of filter_enclosed_regions *)

(** The grid together with the globals [points] and [big]. *)
Record fstate := FState { grid : gmap Z Z; points : Z; big : bool }.

(** [i == 0 || i == nx - 1 || j == 0 || j == ny - 1 || k == 0 || k == nz - 1] *)
Definition on_face (nx ny nz i j k : Z) : bool :=
  (i =? 0) || (i =? nx - 1) || (j =? 0) || (j =? ny - 1) || (k =? 0) || (k =? nz - 1).

(** The recursion of the source is bounded here by [fuel], the number of
    nested calls that may still be entered; [None] means the bound was hit.
    [flood_and_fill_total] below shows that the bound used by the callers
    is never hit. *)
Fixpoint flood_and_fill (fuel : nat) (nx ny nz i j k tag : Z) (s : fstate) : option fstate :=
  match fuel with
  | O => None
  | S fuel' =>
      if on_face nx ny nz i j k then Some s
      else if (if rd (grid s) (idx ny nz i j k) =? 1 then negb (big s) else false) then
        let g1 := wr (grid s) (idx ny nz i j k) tag in
        let p1 := points s + 1 in
        let b1 := if p1 =? 10000 then true else big s in
        if negb b1 then
          for_each (fun '(x, y, z) => flood_and_fill fuel' nx ny nz x y z tag)
                   (cube i j k) (FState g1 p1 b1)
        else Some (FState g1 p1 b1)
      else Some s
  end.

(** Nested calls never go deeper than the 10 000 voxels of the budget. *)
Definition depth : nat := Z.to_nat 10001.

Fixpoint first_cluster_tag (g : gmap Z Z) (nx ny nz : Z) (l : list (Z * Z * Z)) : Z :=
  match l with
  | [] => 0
  | (x, y, z) :: l' =>
      if outside nx ny nz x y z then first_cluster_tag g nx ny nz l'
      else if rd g (idx ny nz x y z) >? 1 then rd g (idx ny nz x y z)
      else first_cluster_tag g nx ny nz l'
  end.

Definition check_unclustered_neighbours (g : gmap Z Z) (nx ny nz i j k : Z) : Z :=
  first_cluster_tag g nx ny nz (cube i j k).

(** The body of the rescan at [(i2, j2, k2)]; the state is the globals and
    the local [aux]. *)
Definition rescan_step (nx ny nz tag : Z) (v : Z * Z * Z) (sa : fstate * Z)
  : option (fstate * Z) :=
  let '(i2, j2, k2) := v in
  let '(s, aux) := sa in
  let aux := aux + points s in
  let s0 := FState (grid s) 0 false in
  if (if rd (grid s0) (idx ny nz i2 j2 k2) =? 1
      then check_unclustered_neighbours (grid s0) nx ny nz i2 j2 k2 =? tag
      else false)
  then s' ← flood_and_fill depth nx ny nz i2 j2 k2 tag s0; Some (s', aux)
  else Some (s0, aux).

(** One turn of [while (big)]: [aux = 0] and the three loops. *)
Definition rescan (nx ny nz tag : Z) (s : fstate) : option (fstate * Z) :=
  for_each (rescan_step nx ny nz tag) (box 0 nx 0 ny 0 nz) (s, 0).

(** [while (big) { ... }], with [turns] bounding the number of turns. *)
Fixpoint while_big (turns : nat) (nx ny nz tag : Z) (sa : fstate * Z) : option (fstate * Z) :=
  match turns with
  | O => None
  | S turns' =>
      if big (fst sa) then
        sa' ← rescan nx ny nz tag (fst sa);
        while_big turns' nx ny nz tag sa'
      else Some sa
  end.

(** The state of the scan: the globals and the local [tag]. *)
Record cstate := CState { cfs : fstate; ctag : Z }.

(** The body of the scan at [(i, j, k)].  Two turns are all [while (big)] can
    use ([while_big_one_turn] below). *)
Definition scan_step (nx ny nz : Z) (v : Z * Z * Z) (c : cstate) : option cstate :=
  let '(i, j, k) := v in
  if rd (grid (cfs c)) (idx ny nz i j k) =? 1 then
    let tag := ctag c + 1 in
    s1 ← flood_and_fill depth nx ny nz i j k tag (FState (grid (cfs c)) 0 (big (cfs c)));
    '(s2, aux) ← while_big 2 nx ny nz tag (s1, points s1);
    Some (CState (FState (grid s2) aux (big s2)) tag)
  else Some c.

(** The clustering scan, from [tag = 1] and [big = 0]; [points] is set to 0
    before it is ever read. *)
Definition cluster (g : gmap Z Z) (nx ny nz : Z) : option cstate :=
  for_each (scan_step nx ny nz) (box 0 nx 0 ny 0 nz) (CState (FState g 0 false) 1).

Definition convert_voxel (ny nz : Z) (g : gmap Z Z) (v : Z * Z * Z) : gmap Z Z :=
  let '(i, j, k) := v in
  if rd g (idx ny nz i j k) =? 2 then wr g (idx ny nz i j k) 1
  else if rd g (idx ny nz i j k) >? 2 then wr g (idx ny nz i j k) 0
  else g.

(** The sweep under "Convert tags". *)
Definition convert_tags (g : gmap Z Z) (nx ny nz : Z) : gmap Z Z :=
  foldl (convert_voxel ny nz) g (box 0 nx 0 ny 0 nz).

Definition filter_enclosed_regions (g : gmap Z Z) (nx ny nz : Z) : option (gmap Z Z) :=
  c ← cluster g nx ny nz;
  Some (if ctag c >? 1 then convert_tags (grid (cfs c)) nx ny nz else grid (cfs c)).

(** ** _surface *)

(** [None] stands for a call that does not return a grid. *)
Definition _surface (g : gmap Z Z) (size nx ny nz : Z) (atoms : list float) (natoms : Z)
    (reference sincos : list float) (step probe : float) (is_ses : bool) (nthreads : Z)
  : option (gmap Z Z) :=
  let g := igrid g size in
  let g := fill g nx ny nz atoms natoms reference sincos step probe in
  let g := if is_ses then ses g nx ny nz step probe else g in
  let g := filter_surface g nx ny nz in
  g ← filter_enclosed_regions g nx ny nz;
  Some (filter_noise_points g nx ny nz).

(** ** _interface *)

(** The list [reslist] is represented by the [pos] fields of its nodes.
    [insert_after next pos] is the [while] loop of [insert], [next] being
    [current->next]. *)
Fixpoint insert_after (next : list Z) (pos : Z) : list Z :=
  match next with
  | [] => [pos]
  | n :: rest => if n <? pos then n :: insert_after rest pos else pos :: next
  end.

Definition insert (head : list Z) (pos : Z) : list Z :=
  match head with
  | [] => [pos]
  | h :: rest => if h >=? pos then pos :: head else h :: insert_after rest pos
  end.

Record istate := IState { reslist : list Z; count : Z; old_atom : Z }.

Definition interface_voxel (nx ny nz : Z) (g : gmap Z Z) (x y z H : float) (atom : Z)
    (s : istate) (v : Z * Z * Z) : istate :=
  let '(i, j, k) := v in
  if (i <? nx) && (i >? 0) && (j <? ny) && (j >? 0) && (k <? nz) && (k >? 0) then
    if rd g (idx ny nz i j k) =? 1 then
      if (distance i j k x y z <=? H)%float then
        if negb (old_atom s =? atom)
        then IState (insert (reslist s) atom) (count s + 1) atom
        else IState (reslist s) (count s) atom
      else s
    else s
  else s.

Definition interface_atom (g : gmap Z Z) (nx ny nz : Z) (atoms reference sincos : list float)
    (step probe : float) (s : istate) (atom : Z) : istate :=
  let '(x, y, z) := grid_coords atoms reference sincos step atom in
  let H := reach atoms step probe atom in
  foldl (interface_voxel nx ny nz g x y z H atom) s (around x y z H).

(** The loop over the atoms, from [reslist = NULL], [count = 0], [old_atom = -1]. *)
Definition interface_scan (g : gmap Z Z) (nx ny nz : Z) (atoms : list float) (natoms : Z)
    (reference sincos : list float) (step probe : float) : istate :=
  foldl (interface_atom g nx ny nz atoms reference sincos step probe)
        (IState [] 0 (-1)) (range 0 natoms).

(** [pdb[pos]] *)
Definition str (pdb : list string) (pos : Z) : string := nth (Z.to_nat pos) pdb String.EmptyString.

(** The copy into the array: [residues = calloc(count + 1, ...)], then
    [residues[j++] = pdb[new_res->pos]] along the list and [residues[j] = NULL].
    A slot is [None] when it holds NULL. *)
Definition to_array (pdb : list string) (s : istate) : list (option string) :=
  let residues := replicate (Z.to_nat (count s + 1)) None in
  let '(residues, j) :=
    foldl (fun '(r, j) pos => (<[Z.to_nat j := Some (str pdb pos)]> r, j + 1))
          (residues, 0) (reslist s) in
  <[Z.to_nat j := None]> residues.

Definition _interface (g : gmap Z Z) (nx ny nz : Z) (pdb : list string) (atoms : list float)
    (natoms : Z) (reference sincos : list float) (step probe : float) (nthreads : Z)
  : list (option string) :=
  to_array pdb (interface_scan g nx ny nz atoms natoms reference sincos step probe).

(** ** Vocabulary of the statements *)

(** Every voxel of the grid carries a tag in [P]. *)
Definition tags (nx ny nz : Z) (g : gmap Z Z) (P : Z → Prop) : Prop :=
  ∀ i j k, in_grid nx ny nz i j k → P (rd g (idx ny nz i j k)).

(** The budget of the marker: [points] counts up to 10 000, and [big] is
    set as soon as it gets there. *)
Definition within_budget (s : fstate) : Prop :=
  0 ≤ points s ≤ 10000 ∧ (big s = false → points s < 10000).

(** The rewriting of one tag by the sweep under "Convert tags". *)
Definition converted (t : Z) : Z := if t =? 2 then 1 else if t >? 2 then 0 else t.

(** No voxel of the grid carries a cluster tag. *)
Definition below2 (nx ny nz : Z) (g : gmap Z Z) : bool :=
  forallb (λ '(i, j, k), rd g (idx ny nz i j k) <? 2) (box 0 nx 0 ny 0 nz).


(** What the first sweep of [ses] may do to a tag: nothing, or 0 to -2. *)
Definition marked (t t' : Z) : Prop := t' = t ∨ (t = 0 ∧ t' = -2).

(** What the second sweep of [ses] does to a tag. *)
Definition promoted (t : Z) : Z := if t =? -2 then 1 else t.

(** The test [_interface] makes at a voxel. *)
Definition touching_voxel (nx ny nz : Z) (g : gmap Z Z) (x y z H : float) (v : Z * Z * Z)
  : bool :=
  let '(i, j, k) := v in
  (i <? nx) && (i >? 0) && (j <? ny) && (j >? 0) && (k <? nz) && (k >? 0)
  && (rd g (idx ny nz i j k) =? 1) && (distance i j k x y z <=? H)%float.

(** Atom [atom] touches the surface, as [_interface] tests it. *)
Definition touches (g : gmap Z Z) (nx ny nz : Z) (atoms reference sincos : list float)
    (step probe : float) (atom : Z) : bool :=
  let '(x, y, z) := grid_coords atoms reference sincos step atom in
  let H := reach atoms step probe atom in
  existsb (touching_voxel nx ny nz g x y z H) (around x y z H).

(** The test [fill] makes at the voxel [v] around a centre, for the cell [q]:
    the voxel is nearer than H, lies within the grid and is stored at [q]. *)
Definition carving_voxel (nx ny nz : Z) (x y z H : float) (q : Z) (v : Z * Z * Z) : bool :=
  let '(i, j, k) := v in
  (distance i j k x y z <? H)%float
  && ((i >=? 0) && (i <? nx) && (j >=? 0) && (j <? ny) && (k >=? 0) && (k <? nz))
  && (idx ny nz i j k =? q).

(** Atom [atom] carves the cell [q]. *)
Definition carves (nx ny nz : Z) (atoms reference sincos : list float) (step probe : float)
    (q atom : Z) : bool :=
  let '(x, y, z) := grid_coords atoms reference sincos step atom in
  let H := reach atoms step probe atom in
  existsb (carving_voxel nx ny nz x y z H q) (around x y z H).

(** The cube scanned around atom [atom] misses the grid. *)
Definition misses_grid (nx ny nz : Z) (atoms reference sincos : list float)
    (step probe : float) (atom : Z) : bool :=
  let '(x, y, z) := grid_coords atoms reference sincos step atom in
  let H := reach atoms step probe atom in
  (ceilZ (x + H) <? 0) || (nx <=? floorZ (x - H))
  || (ceilZ (y + H) <? 0) || (ny <=? floorZ (y - H))
  || (ceilZ (z + H) <? 0) || (nz <=? floorZ (z - H)).

(** What the first sweep of [ses] may do to the cell [q]: nothing, or 0 to -2
    where [q] stores a voxel of the grid none of whose indices is 0. *)
Definition marked_inside (nx ny nz : Z) (g g' : gmap Z Z) (q : Z) : Prop :=
  rd g' q = rd g q
  ∨ (rd g q = 0 ∧ rd g' q = -2
     ∧ ∃ i j k, 0 < i < nx ∧ 0 < j < ny ∧ 0 < k < nz ∧ q = idx ny nz i j k).

(** The loop of [define_surface_points] and [remove_noise_points]: one of
    the 27 voxels around [(i, j, k)] lies within the grid and carries [t]. *)
Definition has_neighbour (g : gmap Z Z) (nx ny nz t i j k : Z) : bool :=
  existsb (λ '(x, y, z), if outside nx ny nz x y z then false
                         else rd g (idx ny nz x y z) =? t)
          (cube i j k).

(** What a sweep that rewrites each voxel tagged 1, into 1 where a neighbour
    carries [T] and into [B] elsewhere, makes of the voxel [(i, j, k)] of [g]. *)
Definition swept (nx ny nz T B : Z) (g : gmap Z Z) (i j k : Z) : Z :=
  if rd g (idx ny nz i j k) =? 1
  then (if has_neighbour g nx ny nz T i j k then 1 else B)
  else rd g (idx ny nz i j k).

(** What clustering with tags from [lo] on may do to the cell [q]: nothing,
    or 1 to such a tag where [q] stores a voxel of the grid off its faces. *)
Definition clustered (nx ny nz lo : Z) (g g' : gmap Z Z) (q : Z) : Prop :=
  rd g' q = rd g q
  ∨ (rd g q = 1 ∧ lo ≤ rd g' q
     ∧ ∃ i j k, in_grid nx ny nz i j k ∧ on_face nx ny nz i j k = false
                ∧ q = idx ny nz i j k).

(** The first voxel tagged 1 that the scan of [filter_enclosed_regions]
    comes to. *)
Definition first_candidate (g : gmap Z Z) (nx ny nz : Z) : option (Z * Z * Z) :=
  find (λ '(i, j, k), rd g (idx ny nz i j k) =? 1) (box 0 nx 0 ny 0 nz).

(** The grid [_surface] hands to [filter_surface]: initialised, carved by the
    atoms and, when asked for, adjusted by [ses]. *)
Definition carved_grid (g : gmap Z Z) (nx ny nz : Z) (atoms : list float) (natoms : Z)
    (reference sincos : list float) (step probe : float) (is_ses : bool) : gmap Z Z :=
  let g := fill (igrid g (nx * ny * nz)) nx ny nz atoms natoms reference sincos step probe in
  if is_ses then ses g nx ny nz step probe else g.

(** The voxels [_interface] may count have the same tag 1 in [g] and in [h]. *)
Definition same_candidates (nx ny nz : Z) (g h : gmap Z Z) : Prop :=
  ∀ i j k, 0 < i < nx → 0 < j < ny → 0 < k < nz →
    (rd g (idx ny nz i j k) = 1 ↔ rd h (idx ny nz i j k) = 1).

(** ** Inputs of the examples *)

(** Two candidate voxels that do not touch, in a 5x3x3 grid of bulk. *)
Definition two_cells : gmap Z Z := wr (wr ∅ (idx 3 3 1 1 1) 1) (idx 3 3 3 1 1) 1.

(** A candidate voxel in the corner of a 3x3x3 grid of bulk. *)
Definition corner_cell : gmap Z Z := wr ∅ (idx 3 3 0 0 0) 1.

(** Two candidate voxels that do not touch in a 5x3x3 grid of bulk: (0,1,1)
    on the face [i = 0], which the scan comes to first, and (2,1,1) off the
    faces. *)
Definition face_then_inner : gmap Z Z := wr (wr ∅ (idx 3 3 0 1 1) 1) (idx 3 3 2 1 1) 1.

(** One candidate voxel in a 2x2x5 grid of bulk. *)
Definition lone_cell : gmap Z Z := wr ∅ (idx 2 5 1 1 1) 1.

(** Two columns of candidate voxels, [(i,1,1)] and [(i,1,3)] for
    [1 <= i <= 10001], joined at their far end by [(10001,1,2)], in a
    10003x3x5 grid of bulk: one 26-connected set of 20 003 voxels. *)
Definition u_grid : gmap Z Z :=
  wr (foldl (λ g i, wr (wr g (idx 3 5 i 1 1) 1) (idx 3 5 i 1 3) 1) ∅ (range 1 10002))
     (idx 3 5 10001 1 2) 1.

(** [reference] at the origin, and [sincos] for the angles 0 and 0. *)
Definition origin : list float := [0%float; 0%float; 0%float].

Definition no_rotation : list float := [0%float; 1%float; 0%float; 1%float].

(** An atom of radius 1 centred on the corner voxel (0,0,0). *)
Definition corner_atom : list float := [0%float; 0%float; 0%float; 1%float].

(** Two atoms of radius 0.375, centred one voxel outside the face [i = 0]
    and one voxel outside the face [i = 2] of a 3x3x3 grid. *)
Definition wall_atoms : list float :=
  [(-1)%float; 1%float; 1%float; 0.375%float; 3%float; 1%float; 1%float; 0.375%float].

(** An atom of radius 1 centred five voxels before the face [i = 0]. *)
Definition far_atom : list float := [(-5)%float; 1%float; 1%float; 1%float].

(** A 3x3x3 grid whose plane [i = 0] carries 0 and whose other planes
    carry 1. *)
Definition half_bulk : gmap Z Z := foldl (λ g p, wr g p 1) ∅ (range 9 27).

(** * Proofs *)

(** ** Loops *)

Lemma elem_of_count_up (x lo : Z) (n : nat) :
  x ∈ count_up lo n ↔ lo ≤ x < lo + Z.of_nat n.
Proof.
  revert lo; induction n as [|n IH]; intros lo; simpl count_up.
  - rewrite elem_of_nil. lia.
  - rewrite elem_of_cons, IH. lia.
Qed.

Lemma elem_of_range (x lo hi : Z) : x ∈ range lo hi ↔ lo ≤ x < hi.
Proof. unfold range. rewrite elem_of_count_up. lia. Qed.

Lemma range_empty (lo hi : Z) : hi ≤ lo → range lo hi = [].
Proof. intros H. unfold range. replace (Z.to_nat (hi - lo)) with O by lia. done. Qed.

Lemma count_up_snoc (lo : Z) (n : nat) :
  count_up lo (S n) = count_up lo n ++ [lo + Z.of_nat n].
Proof.
  revert lo; induction n as [|n IH]; intros lo.
  - simpl. f_equal. lia.
  - change (count_up lo (S (S n))) with (lo :: count_up (lo + 1) (S n)).
    rewrite IH. simpl. do 3 f_equal. lia.
Qed.

Lemma range_snoc (lo hi : Z) : lo ≤ hi → range lo (hi + 1) = range lo hi ++ [hi].
Proof.
  intros H. unfold range.
  replace (Z.to_nat (hi + 1 - lo)) with (S (Z.to_nat (hi - lo))) by lia.
  rewrite count_up_snoc. do 2 f_equal. lia.
Qed.

Lemma elem_of_box (i j k ilo ihi jlo jhi klo khi : Z) :
  (i, j, k) ∈ box ilo ihi jlo jhi klo khi ↔
  ilo ≤ i < ihi ∧ jlo ≤ j < jhi ∧ klo ≤ k < khi.
Proof.
  unfold box. rewrite list_elem_of_bind. split.
  - intros (i' & Hj & Hi). apply list_elem_of_bind in Hj as (j' & Hk & Hj).
    apply list_elem_of_bind in Hk as (k' & Hv & Hk).
    apply list_elem_of_singleton in Hv. injection Hv as -> -> ->.
    rewrite !elem_of_range in *. done.
  - intros (Hi & Hj & Hk). exists i. split; [|by apply elem_of_range].
    apply list_elem_of_bind. exists j. split; [|by apply elem_of_range].
    apply list_elem_of_bind. exists k. split; [|by apply elem_of_range].
    by apply list_elem_of_singleton.
Qed.

Lemma elem_of_grid_box (nx ny nz i j k : Z) :
  (i, j, k) ∈ box 0 nx 0 ny 0 nz ↔ in_grid nx ny nz i j k.
Proof. apply elem_of_box. Qed.


(** The last voxel a sweep of a non-empty grid reaches is the far corner. *)
Lemma box_succ_last (a b c : Z) :
  0 ≤ a → 0 ≤ b → 0 ≤ c →
  ∃ pre, box 0 (a + 1) 0 (b + 1) 0 (c + 1) = pre ++ [(a, b, c)].
Proof.
  intros Ha Hb Hc. unfold box.
  rewrite !range_snoc by lia.
  rewrite bind_app. simpl. rewrite app_nil_r.
  rewrite bind_app. simpl. rewrite app_nil_r.
  rewrite bind_app. simpl.
  eexists. rewrite !app_assoc. reflexivity.
Qed.

Lemma box_last (nx ny nz : Z) :
  0 < nx → 0 < ny → 0 < nz →
  ∃ pre, box 0 nx 0 ny 0 nz = pre ++ [(nx - 1, ny - 1, nz - 1)].
Proof.
  intros Hx Hy Hz.
  destruct (box_succ_last (nx - 1) (ny - 1) (nz - 1)) as [pre E]; [lia..|].
  exists pre. rewrite <- E. f_equal; lia.
Qed.

Lemma foldl_invariant {A S : Type} (I : S → Prop) (f : S → A → S) (l : list A) (s : S) :
  I s → (∀ a s, a ∈ l → I s → I (f s a)) → I (foldl f s l).
Proof.
  revert s; induction l as [|a l IH]; intros s Hs Hstep; simpl; [done|].
  apply IH.
  - apply Hstep; [left | done].
  - intros b s' Hb. apply Hstep. by right.
Qed.

(** The same with the part of the list already visited. *)
Lemma foldl_invariant_visited {A S : Type} (I : list A → S → Prop)
    (f : S → A → S) (l : list A) (s : S) :
  I [] s →
  (∀ pre a s, a ∈ l → I pre s → I (pre ++ [a]) (f s a)) →
  I l (foldl f s l).
Proof.
  intros H0 Hstep.
  cut (∀ suf pre s, (∀ a, a ∈ suf → a ∈ l) → I pre s → I (pre ++ suf) (foldl f s suf)).
  { intros H. apply (H l [] s); done. }
  induction suf as [|a suf IH]; intros pre s' Hsub Hpre; simpl.
  - by rewrite app_nil_r.
  - replace (pre ++ a :: suf) with ((pre ++ [a]) ++ suf) by (by rewrite <- app_assoc).
    apply IH.
    + intros b Hb. apply Hsub. by right.
    + apply Hstep; [apply Hsub; left | done].
Qed.

Lemma for_each_invariant {A S : Type} (I : S → Prop) (body : A → S → option S)
    (l : list A) (s : S) :
  I s →
  (∀ a s, a ∈ l → I s → ∃ s', body a s = Some s' ∧ I s') →
  ∃ s', for_each body l s = Some s' ∧ I s'.
Proof.
  revert s; induction l as [|a l IH]; intros s Hs Hstep; simpl; [eauto|].
  destruct (Hstep a s) as (s' & -> & Hs'); [left | done |].
  apply IH; [done|]. intros b s'' Hb. apply Hstep. by right.
Qed.

Lemma for_each_app {A S : Type} (body : A → S → option S) (l1 l2 : list A) (s : S) :
  for_each body (l1 ++ l2) s = for_each body l1 s ≫= for_each body l2.
Proof.
  revert s; induction l1 as [|a l1 IH]; intros s; simpl; [done|].
  destruct (body a s); simpl; [apply IH | done].
Qed.

Lemma for_each_snoc {A S : Type} (body : A → S → option S) (l : list A) (a : A) (s : S) :
  for_each body (l ++ [a]) s = for_each body l s ≫= body a.
Proof.
  rewrite for_each_app. destruct (for_each body l s) as [s'|]; [|done].
  cbn [mbind option_bind for_each]. by destruct (body a s').
Qed.

(** ** The grid *)

Lemma rd_wr_eq (g : gmap Z Z) (p v : Z) : rd (wr g p v) p = v.
Proof. unfold rd, wr. by rewrite lookup_insert_eq. Qed.

Lemma rd_wr_ne (g : gmap Z Z) (p q v : Z) : p ≠ q → rd (wr g p v) q = rd g q.
Proof. intros H. unfold rd, wr. by rewrite lookup_insert_ne. Qed.

Lemma mul_small_zero (n d r : Z) : n * d = r → - n < r < n → d = 0.
Proof.
  intros E Hr. destruct (Z.eq_dec d 0) as [|Hne]; [done|].
  assert (d ≤ -1 ∨ 1 ≤ d) as [Hd|Hd] by lia; nia.
Qed.

Lemma idx_inj (ny nz i j k i' j' k' : Z) :
  0 ≤ j < ny → 0 ≤ k < nz → 0 ≤ j' < ny → 0 ≤ k' < nz →
  idx ny nz i j k = idx ny nz i' j' k' → i = i' ∧ j = j' ∧ k = k'.
Proof.
  unfold idx. intros Hj Hk Hj' Hk' E.
  assert (Hjj : (j + ny * i) - (j' + ny * i') = 0).
  { apply (mul_small_zero nz _ (k' - k)); [|lia].
    rewrite Z.mul_sub_distr_l. lia. }
  assert (Hii : i - i' = 0).
  { apply (mul_small_zero ny _ (j' - j)); [|lia].
    rewrite Z.mul_sub_distr_l. lia. }
  assert (i = i') as <- by lia.
  assert (j = j') as <- by lia.
  split; [done|]. split; [done|]. lia.
Qed.

Lemma rd_wr_voxel (g : gmap Z Z) (nx ny nz i j k i' j' k' v : Z) :
  in_grid nx ny nz i j k → in_grid nx ny nz i' j' k' →
  rd (wr g (idx ny nz i j k) v) (idx ny nz i' j' k') =
  if decide ((i, j, k) = (i', j', k')) then v else rd g (idx ny nz i' j' k').
Proof.
  intros (Hi & Hj & Hk) (Hi' & Hj' & Hk'). case_decide as E.
  - injection E as <- <- <-. apply rd_wr_eq.
  - apply rd_wr_ne. intros E'. apply idx_inj in E' as (-> & -> & ->); done.
Qed.

Lemma idx_bounds (nx ny nz i j k : Z) :
  in_grid nx ny nz i j k → 0 ≤ idx ny nz i j k < nx * ny * nz.
Proof.
  unfold in_grid, idx. intros (Hi & Hj & Hk).
  assert (Ha : 0 ≤ j + ny * i ≤ nx * ny - 1) by nia.
  revert Ha. generalize (j + ny * i). intros a Ha.
  assert (0 ≤ nz * a ≤ nz * (nx * ny - 1)) by nia.
  nia.
Qed.

Lemma outside_false (nx ny nz x y z : Z) :
  outside nx ny nz x y z = false ↔ in_grid nx ny nz x y z.
Proof. unfold outside, in_grid. rewrite !orb_false_iff. lia. Qed.

(** ** igrid *)

Lemma igrid_rd (g : gmap Z Z) (size p : Z) :
  rd (igrid g size) p = if decide (0 ≤ p < size) then 1 else rd g p.
Proof.
  pose proof (foldl_invariant_visited
    (λ pre g', ∀ q, (q ∈ pre → rd g' q = 1) ∧ (q ∉ pre → rd g' q = rd g q))
    (λ g i, wr g i 1) (range 0 size) g) as H.
  simpl in H. unfold igrid. destruct (H) with (q := p) as [H1 H2].
  - intros q. split; [|done]. intros Hq. by apply not_elem_of_nil in Hq.
  - intros pre a g' _ IH q. destruct (decide (a = q)) as [->|Hne].
    + rewrite rd_wr_eq. split; [done|]. intros Hq. exfalso. apply Hq.
      apply elem_of_app. right. left.
    + rewrite rd_wr_ne by done. destruct (IH q) as [IH1 IH2]. split.
      * intros [?|Hq]%elem_of_app; [by apply IH1|].
        apply list_elem_of_singleton in Hq. congruence.
      * intros Hq. apply IH2. intros ?. apply Hq. apply elem_of_app. by left.
  - case_decide as Hp.
    + apply H1. by apply elem_of_range.
    + apply H2. by rewrite elem_of_range.
Qed.

Lemma igrid_tags (g : gmap Z Z) (nx ny nz : Z) :
  tags nx ny nz (igrid g (nx * ny * nz)) (λ t, t = 1).
Proof.
  intros i j k Hin. rewrite igrid_rd. rewrite decide_True; [done|].
  by apply idx_bounds.
Qed.

(** ** Neighbour tests *)

Lemma neighbours_none (g : gmap Z Z) (nx ny nz : Z) (test : Z → bool) (l : list (Z * Z * Z)) :
  tags nx ny nz g (λ t, test t = false) →
  existsb (λ '(x, y, z), if outside nx ny nz x y z then false
                         else test (rd g (idx ny nz x y z))) l = false.
Proof.
  intros Hg. induction l as [|[[x y] z] l IH]; simpl; [done|].
  rewrite IH, orb_false_r.
  destruct (outside nx ny nz x y z) eqn:E; [done|].
  apply Hg. by apply outside_false.
Qed.

Lemma check_protein_neighbours_none (g : gmap Z Z) (nx ny nz i j k : Z) :
  tags nx ny nz g (λ t, t ≠ 0 ∧ t ≠ -2) →
  check_protein_neighbours g nx ny nz i j k = false.
Proof.
  intros Hg. unfold check_protein_neighbours.
  apply (neighbours_none g nx ny nz (λ t, (t =? 0) || (t =? -2))).
  intros x y z Hin. destruct (Hg x y z Hin). rewrite orb_false_iff. lia.
Qed.

(** ** ses on a grid without bulk *)

Lemma ses_mark_no_bulk (g : gmap Z Z) (nx ny nz aux : Z) (step probe : float) (v : Z * Z * Z) :
  tags nx ny nz g (λ t, t ≠ 0 ∧ t ≠ -2) →
  ses_mark nx ny nz step probe aux g v = g.
Proof.
  intros Hg. destruct v as [[i j] k]. unfold ses_mark.
  rewrite check_protein_neighbours_none by done. by destruct (_ =? 1).
Qed.

Lemma ses_no_bulk (g : gmap Z Z) (nx ny nz : Z) (step probe : float) :
  tags nx ny nz g (λ t, t ≠ 0 ∧ t ≠ -2) →
  ses g nx ny nz step probe = g.
Proof.
  intros Hg. unfold ses.
  assert (Ha : ses_pass_a g nx ny nz step probe = g).
  { unfold ses_pass_a. apply (foldl_invariant (λ g', g' = g)); [done|].
    intros v g' _ ->. by apply ses_mark_no_bulk. }
  rewrite Ha. unfold ses_pass_b.
  apply (foldl_invariant (λ g', g' = g)); [done|].
  intros [[i j] k] g' Hin ->. apply elem_of_grid_box in Hin.
  unfold ses_promote. destruct (Hg i j k Hin) as [_ Hne].
  destruct (Z.eqb_spec (rd g (idx ny nz i j k)) (-2)); done.
Qed.

(** ** filter_surface on a grid without bulk *)

Lemma define_surface_points_no_bulk (g : gmap Z Z) (nx ny nz i j k : Z) :
  tags nx ny nz g (λ t, t ≠ 0) →
  define_surface_points g nx ny nz i j k = -1.
Proof.
  intros Hg. unfold define_surface_points.
  rewrite (neighbours_none g nx ny nz (λ t, t =? 0)); [done|].
  intros x y z Hin. specialize (Hg x y z Hin). simpl in Hg. lia.
Qed.

Lemma filter_surface_all_solvent (g : gmap Z Z) (nx ny nz : Z) :
  tags nx ny nz g (λ t, t = 1) →
  tags nx ny nz (filter_surface g nx ny nz) (λ t, t = -1).
Proof.
  intros Hg.
  assert (H : (λ pre g', ∀ i j k, in_grid nx ny nz i j k →
                 (rd g' (idx ny nz i j k) = 1 ∨ rd g' (idx ny nz i j k) = -1) ∧
                 ((i, j, k) ∈ pre → rd g' (idx ny nz i j k) = -1))
              (box 0 nx 0 ny 0 nz) (filter_surface g nx ny nz)).
  { unfold filter_surface. apply foldl_invariant_visited.
    - intros i j k Hin. split; [left; by apply Hg|]. intros H. by apply not_elem_of_nil in H.
    - intros pre [[a b] c] g' Hv IH i j k Hin. apply elem_of_grid_box in Hv.
      unfold surface_voxel.
      destruct (Z.eqb_spec (rd g' (idx ny nz a b c)) 1) as [E1|E1].
      + rewrite define_surface_points_no_bulk.
        2:{ intros x y z Hx. destruct (IH x y z Hx) as [[?|?] _]; lia. }
        rewrite (rd_wr_voxel g' nx) by done. case_decide as E.
        * split; [by right | done].
        * destruct (IH i j k Hin) as [H1 H2]. split; [done|].
          intros [?|Hq]%elem_of_app; [by apply H2|].
          apply list_elem_of_singleton in Hq. congruence.
      + destruct (IH i j k Hin) as [H1 H2]. split; [done|].
        intros [?|Hq]%elem_of_app; [by apply H2|].
        apply list_elem_of_singleton in Hq. injection Hq as -> -> ->.
        destruct (IH a b c Hin) as [[?|?] _]; [done | done]. }
  intros i j k Hin. apply H; [done|]. by apply elem_of_grid_box.
Qed.

(** ** filter_noise_points on a grid without candidate *)

Lemma filter_noise_points_no_candidate (g : gmap Z Z) (nx ny nz : Z) :
  tags nx ny nz g (λ t, t ≠ 1) →
  filter_noise_points g nx ny nz = g.
Proof.
  intros Hg. unfold filter_noise_points.
  apply (foldl_invariant (λ g', g' = g)); [done|].
  intros [[i j] k] g' Hin ->. apply elem_of_grid_box in Hin.
  unfold noise_voxel. specialize (Hg i j k Hin). simpl in Hg.
  destruct (Z.eqb_spec (rd g (idx ny nz i j k)) 1); done.
Qed.

(** ** fill *)

Lemma fill_no_atoms (g : gmap Z Z) (nx ny nz natoms : Z) (atoms reference sincos : list float)
    (step probe : float) :
  natoms ≤ 0 → fill g nx ny nz atoms natoms reference sincos step probe = g.
Proof. intros H. unfold fill. rewrite range_empty by lia. done. Qed.


(** ** flood_and_fill returns *)

Lemma depth_succ : depth = S (Z.to_nat 10000).
Proof. unfold depth. lia. Qed.

Lemma flood_and_fill_on_face (fuel : nat) (nx ny nz i j k tag : Z) (s : fstate) :
  on_face nx ny nz i j k = true →
  flood_and_fill (S fuel) nx ny nz i j k tag s = Some s.
Proof. intros H. simpl. by rewrite H. Qed.

Lemma flood_and_fill_total (fuel : nat) (nx ny nz i j k tag : Z) (s : fstate) :
  within_budget s → 10000 - points s < Z.of_nat fuel →
  ∃ s', flood_and_fill fuel nx ny nz i j k tag s = Some s'
        ∧ within_budget s' ∧ points s ≤ points s'.
Proof.
  revert i j k s. induction fuel as [|fuel IH]; intros i j k s Hs Hfuel.
  { destruct Hs. lia. }
  simpl. destruct (on_face nx ny nz i j k); [by eauto with lia|].
  destruct (if rd (grid s) (idx ny nz i j k) =? 1 then negb (big s) else false) eqn:Hc;
    [|by eauto with lia].
  assert (Hb : big s = false).
  { destruct (rd (grid s) (idx ny nz i j k) =? 1); [|done]. by destruct (big s). }
  destruct Hs as [Hp Hlt]. specialize (Hlt Hb). rewrite Hb.
  destruct (Z.eqb_spec (points s + 1) 10000) as [E|E]; simpl.
  - eexists. split; [done|]. unfold within_budget. simpl. split; [|lia]. split; [lia|done].
  - match goal with |- ∃ s', for_each ?body ?l ?s1 = _ ∧ _ =>
      destruct (for_each_invariant
                  (λ s', within_budget s' ∧ points s + 1 ≤ points s') body l s1)
        as (s' & Hs' & Hw & Hle)
    end.
    + unfold within_budget. simpl. split; [|lia]. split; [lia|]. intros _. lia.
    + intros [[x y] z] s' _ [Hw Hle].
      destruct (IH x y z s' Hw) as (s'' & ? & ? & ?); [lia|].
      exists s''. split; [done|]. split; [done|lia].
    + exists s'. split; [done|]. split; [done|lia].
Qed.

Lemma flood_and_fill_returns (nx ny nz i j k tag : Z) (g : gmap Z Z) (b : bool) :
  ∃ s', flood_and_fill depth nx ny nz i j k tag (FState g 0 b) = Some s' ∧ within_budget s'.
Proof.
  destruct (flood_and_fill_total depth nx ny nz i j k tag (FState g 0 b))
    as (s' & ? & ? & _); [| |by eauto].
  - unfold within_budget. cbn [points big]. lia.
  - cbn [points]. unfold depth. lia.
Qed.

(** ** The completion loop *)

Lemma rescan_step_returns (nx ny nz tag : Z) (v : Z * Z * Z) (sa : fstate * Z) :
  ∃ sa', rescan_step nx ny nz tag v sa = Some sa'
         ∧ (let '(i, j, k) := v in on_face nx ny nz i j k = true → big (fst sa') = false).
Proof.
  destruct v as [[i j] k], sa as [s aux]. unfold rescan_step. simpl grid.
  destruct (if rd (grid s) (idx ny nz i j k) =? 1
            then check_unclustered_neighbours (grid s) nx ny nz i j k =? tag
            else false).
  - destruct (flood_and_fill_returns nx ny nz i j k tag (grid s) false) as (s' & E & _).
    rewrite E. cbn [mbind option_bind]. eexists. split; [done|]. intros Hf. cbn [fst].
    rewrite depth_succ, flood_and_fill_on_face in E by done. by injection E as <-.
  - eexists. split; [done|]. done.
Qed.

(** A turn of the loop always ends with [big] cleared: its last voxel is
    the far corner of the grid, which lies on a face. *)
Lemma rescan_returns (nx ny nz tag : Z) (s : fstate) :
  0 < nx → 0 < ny → 0 < nz →
  ∃ sa', rescan nx ny nz tag s = Some sa' ∧ big (fst sa') = false.
Proof.
  intros Hx Hy Hz. unfold rescan.
  destruct (box_last nx ny nz Hx Hy Hz) as [pre ->].
  rewrite for_each_snoc.
  destruct (for_each_invariant (λ _, True) (rescan_step nx ny nz tag) pre (s, 0))
    as (sa1 & -> & _); [done| |].
  { intros v sa _ _. destruct (rescan_step_returns nx ny nz tag v sa) as (sa' & ? & _). eauto. }
  cbn [mbind option_bind].
  destruct (rescan_step_returns nx ny nz tag (nx - 1, ny - 1, nz - 1) sa1) as (sa2 & -> & Hb).
  exists sa2. split; [done|]. apply Hb. unfold on_face. rewrite Z.eqb_refl. simpl.
  by rewrite orb_true_r.
Qed.

(** [while (big)] makes one turn and no second one, however the grid looks. *)
Lemma while_big_one_turn (turns : nat) (nx ny nz tag : Z) (sa : fstate * Z) :
  0 < nx → 0 < ny → 0 < nz →
  while_big (S (S turns)) nx ny nz tag sa =
  if big (fst sa) then rescan nx ny nz tag (fst sa) else Some sa.
Proof.
  intros Hx Hy Hz. cbn [while_big]. destruct (big (fst sa)); [|done].
  destruct (rescan_returns nx ny nz tag (fst sa) Hx Hy Hz) as (sa' & -> & Hb).
  cbn [mbind option_bind]. by rewrite Hb.
Qed.

Lemma while_big_returns (nx ny nz tag : Z) (sa : fstate * Z) :
  0 < nx → 0 < ny → 0 < nz →
  ∃ sa', while_big 2 nx ny nz tag sa = Some sa' ∧ big (fst sa') = false.
Proof.
  intros Hx Hy Hz. rewrite while_big_one_turn by done.
  destruct (big (fst sa)) eqn:Hb; [by apply rescan_returns | by eauto].
Qed.

(** ** The scan *)

Lemma scan_step_skip (nx ny nz i j k : Z) (c : cstate) :
  rd (grid (cfs c)) (idx ny nz i j k) ≠ 1 → scan_step nx ny nz (i, j, k) c = Some c.
Proof. intros H. unfold scan_step. by destruct (Z.eqb_spec (rd (grid (cfs c)) (idx ny nz i j k)) 1). Qed.

Lemma scan_step_returns (nx ny nz i j k : Z) (c : cstate) :
  in_grid nx ny nz i j k → rd (grid (cfs c)) (idx ny nz i j k) = 1 →
  ∃ c', scan_step nx ny nz (i, j, k) c = Some c' ∧ big (cfs c') = false
        ∧ ctag c' = ctag c + 1.
Proof.
  intros Hv E. unfold scan_step. rewrite E. cbn [Z.eqb Pos.eqb].
  destruct (flood_and_fill_returns nx ny nz i j k (ctag c + 1) (grid (cfs c)) (big (cfs c)))
    as (s1 & -> & _).
  cbn [mbind option_bind].
  destruct (while_big_returns nx ny nz (ctag c + 1) (s1, points s1))
    as ([s2 aux] & -> & Hb); [unfold in_grid in Hv; lia..|].
  cbn [fst] in Hb. cbn [mbind option_bind]. eexists. split; [done|]. done.
Qed.

(** On a face the marker returns at once: the counter is incremented all
    the same, and nothing else changes. *)
Lemma scan_step_on_face (nx ny nz i j k : Z) (c : cstate) :
  in_grid nx ny nz i j k → on_face nx ny nz i j k = true →
  big (cfs c) = false → rd (grid (cfs c)) (idx ny nz i j k) = 1 →
  scan_step nx ny nz (i, j, k) c = Some (CState (FState (grid (cfs c)) 0 false) (ctag c + 1)).
Proof.
  intros Hv Hf Hb E. unfold scan_step. rewrite E. cbn [Z.eqb Pos.eqb].
  rewrite depth_succ, flood_and_fill_on_face by done.
  cbn [mbind option_bind]. rewrite Hb.
  rewrite while_big_one_turn by (unfold in_grid in Hv; lia). done.
Qed.

Lemma cluster_returns (g : gmap Z Z) (nx ny nz : Z) :
  ∃ c, cluster g nx ny nz = Some c ∧ big (cfs c) = false ∧ 1 ≤ ctag c
       ∧ (ctag c = 1 → grid (cfs c) = g).
Proof.
  unfold cluster.
  destruct (for_each_invariant
              (λ c, big (cfs c) = false ∧ 1 ≤ ctag c ∧ (ctag c = 1 → grid (cfs c) = g))
              (scan_step nx ny nz) (box 0 nx 0 ny 0 nz) (CState (FState g 0 false) 1))
    as (c & ? & ? & ? & ?); [done| |by eauto].
  intros [[i j] k] c Hv (Hb & Ht & Hg). apply elem_of_grid_box in Hv.
  destruct (decide (rd (grid (cfs c)) (idx ny nz i j k) = 1)) as [E|E].
  - destruct (scan_step_returns nx ny nz i j k c Hv E) as (c' & -> & Hb' & Ht').
    exists c'. split; [done|]. split; [done|]. split; lia.
  - rewrite scan_step_skip by done. eauto.
Qed.

Lemma filter_enclosed_regions_returns (g : gmap Z Z) (nx ny nz : Z) :
  ∃ g', filter_enclosed_regions g nx ny nz = Some g'.
Proof.
  unfold filter_enclosed_regions.
  destruct (cluster_returns g nx ny nz) as (c & -> & _). cbn [mbind option_bind]. eauto.
Qed.

(** Without a candidate voxel the scan finds nothing to do. *)
Lemma filter_enclosed_regions_no_candidate (g : gmap Z Z) (nx ny nz : Z) :
  tags nx ny nz g (λ t, t ≠ 1) → filter_enclosed_regions g nx ny nz = Some g.
Proof.
  intros Hg. unfold filter_enclosed_regions, cluster.
  destruct (for_each_invariant (λ c, c = CState (FState g 0 false) 1)
              (scan_step nx ny nz) (box 0 nx 0 ny 0 nz) (CState (FState g 0 false) 1))
    as (c & -> & ->); [done| |done].
  intros [[i j] k] c Hv ->. apply elem_of_grid_box in Hv.
  rewrite scan_step_skip; [by eauto|]. by apply Hg.
Qed.

(** ** Sweeps that rewrite each voxel by its own tag *)

Lemma pointwise_sweep (F : Z → Z) (body : gmap Z Z → Z * Z * Z → gmap Z Z)
    (nx ny nz : Z) (g : gmap Z Z) :
  (∀ t, F (F t) = F t) →
  (∀ g i j k q, rd (body g (i, j, k)) q
                = if decide (q = idx ny nz i j k) then F (rd g q) else rd g q) →
  ∀ i j k, in_grid nx ny nz i j k →
    rd (foldl body g (box 0 nx 0 ny 0 nz)) (idx ny nz i j k) = F (rd g (idx ny nz i j k)).
Proof.
  intros HF Hbody.
  pose proof (foldl_invariant_visited
    (λ pre g', ∀ q, (rd g' q = rd g q ∨ rd g' q = F (rd g q)) ∧
                    (∀ i j k, (i, j, k) ∈ pre → q = idx ny nz i j k → rd g' q = F (rd g q)))
    body (box 0 nx 0 ny 0 nz) g) as H.
  cbv beta in H. intros i j k Hin.
  eapply H; [| |by apply elem_of_grid_box|done].
  - intros q. split; [by left|]. intros ??? Hq. by apply not_elem_of_nil in Hq.
  - intros pre [[a b] c] g' _ IH q. rewrite Hbody. destruct (IH q) as [IH1 IH2].
    case_decide as E.
    + assert (rd g' q = F (rd g q) → F (rd g' q) = F (rd g q)) by (intros ->; apply HF).
      assert (F (rd g' q) = F (rd g q)) as -> by (destruct IH1 as [->|?]; auto).
      split; [by right | done].
    + split; [done|]. intros i' j' k' [?|Hq]%elem_of_app Hidx; [by eapply IH2|].
      apply list_elem_of_singleton in Hq. injection Hq as -> -> ->. done.
Qed.

Lemma converted_idemp (t : Z) : converted (converted t) = converted t.
Proof.
  unfold converted. destruct (Z.eqb_spec t 2) as [->|?]; [done|].
  destruct (Z.gtb_spec t 2); [done|].
  destruct (Z.eqb_spec t 2); [done|]. destruct (Z.gtb_spec t 2); [lia|done].
Qed.

Lemma convert_voxel_rd (ny nz : Z) (g : gmap Z Z) (i j k q : Z) :
  rd (convert_voxel ny nz g (i, j, k)) q
  = if decide (q = idx ny nz i j k) then converted (rd g q) else rd g q.
Proof.
  unfold convert_voxel, converted. case_decide as E.
  - subst q. destruct (_ =? 2); [by rewrite rd_wr_eq|].
    destruct (_ >? 2); [by rewrite rd_wr_eq | done].
  - destruct (_ =? 2); [by rewrite rd_wr_ne|].
    destruct (_ >? 2); [by rewrite rd_wr_ne | done].
Qed.

Lemma convert_tags_rd (g : gmap Z Z) (nx ny nz i j k : Z) :
  in_grid nx ny nz i j k →
  rd (convert_tags g nx ny nz) (idx ny nz i j k) = converted (rd g (idx ny nz i j k)).
Proof.
  unfold convert_tags.
  apply (pointwise_sweep converted); [apply converted_idemp | apply convert_voxel_rd].
Qed.

Lemma below2_tags (nx ny nz : Z) (g : gmap Z Z) :
  below2 nx ny nz g = true → tags nx ny nz g (λ t, t < 2).
Proof.
  unfold below2. rewrite forallb_forall. intros H i j k Hin.
  specialize (H (i, j, k)). cbv beta iota in H. apply Z.ltb_lt, H.
  apply list_elem_of_In. by apply elem_of_grid_box.
Qed.

(** C1.  When [filter_enclosed_regions] is given a grid without cluster
    tags it returns, and its closing sweep has then turned every voxel
    tagged 2 by the clustering into 1 and every voxel tagged above 2 into 0,
    left no tag of 2 or more, and kept the voxels tagged 0 or -1. *)
Theorem C1_tag_rewrite (g : gmap Z Z) (nx ny nz : Z) :
  below2 nx ny nz g = true →
  ∃ c g', cluster g nx ny nz = Some c
    ∧ filter_enclosed_regions g nx ny nz = Some g'
    ∧ ∀ i j k, in_grid nx ny nz i j k →
        let before := rd (grid (cfs c)) (idx ny nz i j k) in
        let after := rd g' (idx ny nz i j k) in
        (before = 2 → after = 1) ∧ (before > 2 → after = 0) ∧ after < 2
        ∧ (before = 0 ∨ before = -1 → after = before).
Proof.
  intros Hg%below2_tags. unfold filter_enclosed_regions.
  destruct (cluster_returns g nx ny nz) as (c & -> & _ & Ht & Hsame).
  cbn [mbind option_bind]. eexists _, _. split; [done|]. split; [done|].
  intros i j k Hin. cbv zeta.
  destruct (Z.gtb_spec (ctag c) 1) as [Hc|Hc].
  - rewrite convert_tags_rd by done. unfold converted.
    destruct (Z.eqb_spec (rd (grid (cfs c)) (idx ny nz i j k)) 2);
      destruct (Z.gtb_spec (rd (grid (cfs c)) (idx ny nz i j k)) 2); lia.
  - rewrite Hsame by lia. specialize (Hg i j k Hin). cbv beta in Hg. lia.
Qed.

Lemma C1_tag_rewrite_witness :
  below2 5 3 3 two_cells = true
  ∧ ∃ c g', cluster two_cells 5 3 3 = Some c
    ∧ filter_enclosed_regions two_cells 5 3 3 = Some g'
    ∧ ∀ i j k, in_grid 5 3 3 i j k →
        let before := rd (grid (cfs c)) (idx 3 3 i j k) in
        let after := rd g' (idx 3 3 i j k) in
        (before = 2 → after = 1) ∧ (before > 2 → after = 0) ∧ after < 2
        ∧ (before = 0 ∨ before = -1 → after = before).
Proof.
  split; [vm_compute; reflexivity|].
  apply (C1_tag_rewrite two_cells 5 3 3). vm_compute; reflexivity.
Defined.

(** What the scan does at a voxel.  It increments [tag] at every voxel it
    finds tagged 1, on an outer face or not, and at no other voxel; at a
    voxel on an outer face the marker returns at once, so that the grid,
    and with it the tag 1 of the voxel, stays as it was.  ([big] is clear
    when the scan starts, and every step leaves it clear.) *)
Lemma scan_counts_every_candidate (nx ny nz i j k : Z) (c : cstate) :
  in_grid nx ny nz i j k → big (cfs c) = false →
  (rd (grid (cfs c)) (idx ny nz i j k) ≠ 1 → scan_step nx ny nz (i, j, k) c = Some c)
  ∧ (rd (grid (cfs c)) (idx ny nz i j k) = 1 →
     ∃ c', scan_step nx ny nz (i, j, k) c = Some c' ∧ ctag c' = ctag c + 1
           ∧ big (cfs c') = false
           ∧ (on_face nx ny nz i j k = true → grid (cfs c') = grid (cfs c))).
Proof.
  intros Hin Hb. split; [apply scan_step_skip|]. intros E.
  destruct (on_face nx ny nz i j k) eqn:Hf.
  - rewrite scan_step_on_face by done. eexists. split; [done|]. done.
  - destruct (scan_step_returns nx ny nz i j k c Hin E) as (c' & -> & ? & ?).
    exists c'. done.
Qed.

(** C2 fails in the code.  In the 5x3x3 grid [face_then_inner] the scan
    comes first to (0,1,1), tagged 1 on the face [i = 0]: the voxel keeps
    its 1 and the grid is unchanged, as the claim says, but [tag] has moved
    from 1 to 2, [tag++] coming before the face test of the marker.  Tag 2,
    the tag the closing sweep keeps, is so used up without a voxel having
    it: the scan ends with [tag = 3], the voxel (2,1,1) off the faces
    carries 3, and [filter_enclosed_regions] turns it into 0, although the
    same voxel alone in the grid gets tag 2 and stays 1. *)
Theorem C2_face_voxel_uses_up_tag :
  on_face 5 3 3 0 1 1 = true ∧ on_face 5 3 3 2 1 1 = false
  ∧ scan_step 5 3 3 (0, 1, 1) (CState (FState face_then_inner 0 false) 1)
    = Some (CState (FState face_then_inner 0 false) 2)
  ∧ (∃ c, cluster face_then_inner 5 3 3 = Some c ∧ ctag c = 3
          ∧ rd (grid (cfs c)) (idx 3 3 0 1 1) = 1
          ∧ rd (grid (cfs c)) (idx 3 3 2 1 1) = 3)
  ∧ (∃ g', filter_enclosed_regions face_then_inner 5 3 3 = Some g'
           ∧ rd g' (idx 3 3 0 1 1) = 1 ∧ rd g' (idx 3 3 2 1 1) = 0)
  ∧ (∃ g', filter_enclosed_regions (wr ∅ (idx 3 3 2 1 1) 1) 5 3 3 = Some g'
           ∧ rd g' (idx 3 3 2 1 1) = 1).
Proof.
  split; [reflexivity|]. split; [reflexivity|]. split; [vm_compute; reflexivity|].
  split; [|split]; eexists; (split; [vm_compute; reflexivity|]); vm_compute; done.
Qed.

(** ** _surface *)

Lemma _surface_returns (g : gmap Z Z) (size nx ny nz natoms nthreads : Z)
    (atoms reference sincos : list float) (step probe : float) (is_ses : bool) :
  ∃ g', _surface g size nx ny nz atoms natoms reference sincos step probe is_ses nthreads
        = Some g'.
Proof.
  unfold _surface.
  match goal with |- ∃ g', filter_enclosed_regions ?h _ _ _ ≫= _ = _ =>
    destruct (filter_enclosed_regions_returns h nx ny nz) as [g1 ->]
  end.
  cbn [mbind option_bind]. eauto.
Qed.

(** Without atoms every voxel ends as -1, the tag [define_surface_points]
    gives to solvent. *)
Lemma _surface_no_atoms (g : gmap Z Z) (nx ny nz natoms nthreads : Z)
    (atoms reference sincos : list float) (step probe : float) (is_ses : bool) :
  natoms ≤ 0 →
  ∃ g', _surface g (nx * ny * nz) nx ny nz atoms natoms reference sincos step probe
                 is_ses nthreads = Some g'
        ∧ tags nx ny nz g' (λ t, t = -1).
Proof.
  intros Hn. unfold _surface. rewrite fill_no_atoms by done.
  pose proof (igrid_tags g nx ny nz) as H1.
  assert (H2 : (if is_ses then ses (igrid g (nx * ny * nz)) nx ny nz step probe
                else igrid g (nx * ny * nz)) = igrid g (nx * ny * nz)).
  { destruct is_ses; [|done]. apply ses_no_bulk.
    intros i j k Hin. rewrite (H1 i j k Hin). lia. }
  rewrite H2. pose proof (filter_surface_all_solvent _ nx ny nz H1) as H3.
  assert (H4 : tags nx ny nz (filter_surface (igrid g (nx * ny * nz)) nx ny nz) (λ t, t ≠ 1)).
  { intros i j k Hin. rewrite (H3 i j k Hin). lia. }
  rewrite filter_enclosed_regions_no_candidate by done. cbn [mbind option_bind].
  rewrite filter_noise_points_no_candidate by done. eauto.
Qed.


Lemma _interface_no_atoms (g : gmap Z Z) (nx ny nz natoms nthreads : Z) (pdb : list string)
    (atoms reference sincos : list float) (step probe : float) :
  natoms ≤ 0 →
  _interface g nx ny nz pdb atoms natoms reference sincos step probe nthreads = [None].
Proof.
  intros Hn. unfold _interface, interface_scan. rewrite range_empty by lia. reflexivity.
Qed.

(** C8.  With [natoms = 0] the surface operation returns, every voxel of the
    grid then carries -1, the tag of solvent, and [_interface] returns the
    array that holds nothing but the closing NULL. *)
Theorem C8_empty_atom_array (g h : gmap Z Z) (nx ny nz nthreads : Z) (pdb : list string)
    (atoms reference sincos : list float) (step probe : float) (is_ses : bool) :
  (∃ g', _surface g (nx * ny * nz) nx ny nz atoms 0 reference sincos step probe
                  is_ses nthreads = Some g'
         ∧ ∀ i j k, in_grid nx ny nz i j k → rd g' (idx ny nz i j k) = -1)
  ∧ _interface h nx ny nz pdb atoms 0 reference sincos step probe nthreads = [None].
Proof.
  split; [by apply _surface_no_atoms | by apply _interface_no_atoms].
Qed.




(** ** ses *)

Lemma marked_trans (t t' t'' : Z) : marked t t' → marked t' t'' → marked t t''.
Proof. unfold marked. lia. Qed.

Lemma ses_probe_marks (nx ny nz i j k : Z) (step probe : float) (g : gmap Z Z)
    (w : Z * Z * Z) (q : Z) :
  marked (rd g q) (rd (ses_probe nx ny nz step probe i j k g w) q).
Proof.
  destruct w as [[i2 j2] k2]. unfold ses_probe.
  destruct (_ && _); [|by left]. destruct (_ <? _)%float; [|by left].
  destruct (Z.eqb_spec (rd g (idx ny nz i2 j2 k2)) 0) as [E|E]; [|by left].
  destruct (decide (idx ny nz i2 j2 k2 = q)) as [<-|Hne].
  - rewrite rd_wr_eq. by right.
  - rewrite rd_wr_ne by done. by left.
Qed.

Lemma ses_mark_marks (nx ny nz aux : Z) (step probe : float) (g : gmap Z Z)
    (v : Z * Z * Z) (q : Z) :
  marked (rd g q) (rd (ses_mark nx ny nz step probe aux g v) q).
Proof.
  destruct v as [[i j] k]. unfold ses_mark.
  destruct (_ =? 1); [|by left]. destruct (check_protein_neighbours _ _ _ _ _ _ _); [|by left].
  revert q. apply (foldl_invariant (λ g', ∀ q, marked (rd g q) (rd g' q))); [by left|].
  intros w g' _ IH q. eapply marked_trans; [apply IH | apply ses_probe_marks].
Qed.

Lemma ses_pass_a_marks (g : gmap Z Z) (nx ny nz : Z) (step probe : float) (q : Z) :
  marked (rd g q) (rd (ses_pass_a g nx ny nz step probe) q).
Proof.
  unfold ses_pass_a. revert q.
  apply (foldl_invariant (λ g', ∀ q, marked (rd g q) (rd g' q))); [by left|].
  intros v g' _ IH q. eapply marked_trans; [apply IH | apply ses_mark_marks].
Qed.

Lemma ses_promote_rd (ny nz : Z) (g : gmap Z Z) (i j k q : Z) :
  rd (ses_promote ny nz g (i, j, k)) q
  = if decide (q = idx ny nz i j k) then promoted (rd g q) else rd g q.
Proof.
  unfold ses_promote, promoted. case_decide as E.
  - subst q. destruct (_ =? -2); [by rewrite rd_wr_eq | done].
  - destruct (_ =? -2); [by rewrite rd_wr_ne | done].
Qed.

Lemma promoted_idemp (t : Z) : promoted (promoted t) = promoted t.
Proof. unfold promoted. destruct (Z.eqb_spec t (-2)) as [->|?]; [done|]. by destruct (Z.eqb_spec t (-2)). Qed.

Lemma ses_pass_b_rd (g : gmap Z Z) (nx ny nz i j k : Z) :
  in_grid nx ny nz i j k →
  rd (ses_pass_b g nx ny nz) (idx ny nz i j k) = promoted (rd g (idx ny nz i j k)).
Proof.
  unfold ses_pass_b.
  apply (pointwise_sweep promoted); [apply promoted_idemp | apply ses_promote_rd].
Qed.

(** What [ses] does to the tag of a voxel of the grid. *)
Lemma ses_rd (g : gmap Z Z) (nx ny nz i j k : Z) (step probe : float) :
  in_grid nx ny nz i j k →
  let t := rd g (idx ny nz i j k) in
  let t' := rd (ses g nx ny nz step probe) (idx ny nz i j k) in
  t' ≠ -2 ∧ (t ≠ 0 → t' = promoted t) ∧ (t = 0 → t' = 0 ∨ t' = 1).
Proof.
  intros Hin. cbv zeta. unfold ses. rewrite ses_pass_b_rd by done.
  pose proof (ses_pass_a_marks g nx ny nz step probe (idx ny nz i j k)) as Hm.
  unfold marked in Hm. unfold promoted.
  destruct (Z.eqb_spec (rd (ses_pass_a g nx ny nz step probe) (idx ny nz i j k)) (-2));
    destruct (Z.eqb_spec (rd g (idx ny nz i j k)) (-2)); lia.
Qed.

(** C7, as the code has it.  After [ses] no voxel of the grid carries -2,
    and running [ses] once more changes no voxel except that it may turn
    further voxels tagged 0 into 1. *)
Theorem C7_second_ses_only_erodes (g : gmap Z Z) (nx ny nz i j k : Z) (step probe : float) :
  in_grid nx ny nz i j k →
  let once := rd (ses g nx ny nz step probe) (idx ny nz i j k) in
  let twice := rd (ses (ses g nx ny nz step probe) nx ny nz step probe) (idx ny nz i j k) in
  once ≠ -2 ∧ twice ≠ -2 ∧ (twice = once ∨ (once = 0 ∧ twice = 1)).
Proof.
  intros Hin. cbv zeta.
  destruct (ses_rd g nx ny nz i j k step probe Hin) as (H1 & _ & _).
  destruct (ses_rd (ses g nx ny nz step probe) nx ny nz i j k step probe Hin)
    as (H2 & H3 & H4).
  split; [done|]. split; [done|].
  destruct (decide (rd (ses g nx ny nz step probe) (idx ny nz i j k) = 0)) as [E|E].
  - destruct (H4 E) as [?|?]; [left; congruence | by right].
  - left. rewrite (H3 E). unfold promoted.
    by destruct (Z.eqb_spec (rd (ses g nx ny nz step probe) (idx ny nz i j k)) (-2)).
Qed.

Lemma C7_second_ses_only_erodes_witness :
  in_grid 2 2 5 1 1 3
  ∧ rd (ses lone_cell 2 2 5 1 1.5) (idx 2 5 1 1 3) ≠ -2
  ∧ rd (ses (ses lone_cell 2 2 5 1 1.5) 2 2 5 1 1.5) (idx 2 5 1 1 3) ≠ -2
  ∧ (rd (ses (ses lone_cell 2 2 5 1 1.5) 2 2 5 1 1.5) (idx 2 5 1 1 3)
     = rd (ses lone_cell 2 2 5 1 1.5) (idx 2 5 1 1 3)
     ∨ (rd (ses lone_cell 2 2 5 1 1.5) (idx 2 5 1 1 3) = 0
        ∧ rd (ses (ses lone_cell 2 2 5 1 1.5) 2 2 5 1 1.5) (idx 2 5 1 1 3) = 1)).
Proof.
  assert (Hin : in_grid 2 2 5 1 1 3) by (unfold in_grid; lia).
  split; [exact Hin|].
  exact (C7_second_ses_only_erodes lone_cell 2 2 5 1 1 3 1 1.5 Hin).
Defined.

Lemma ses_lone_cell :
  rd (ses lone_cell 2 2 5 1 1.5) (idx 2 5 1 1 3) = 0
  ∧ rd (ses (ses lone_cell 2 2 5 1 1.5) 2 2 5 1 1.5) (idx 2 5 1 1 3) = 1.
Proof. vm_compute. done. Qed.

(** C7 as stated fails: in a 2x2x5 grid of bulk with the one voxel (1,1,1)
    tagged 1, step 1 and probe 1.5, the first [ses] leaves (1,1,3) at 0 and
    the second turns it into 1. *)
Lemma C7_counterexample :
  ¬ (∀ g nx ny nz step probe i j k, in_grid nx ny nz i j k →
       rd (ses (ses g nx ny nz step probe) nx ny nz step probe) (idx ny nz i j k)
       = rd (ses g nx ny nz step probe) (idx ny nz i j k)).
Proof.
  intros H. specialize (H lone_cell 2 2 5 1%float 1.5%float 1 1 3).
  destruct ses_lone_cell as [E1 E2]. rewrite E1, E2 in H.
  enough (1 = 0) by lia. apply H. unfold in_grid. lia.
Qed.

(** ** insert *)

Lemma insert_after_last (l : list Z) (pos : Z) :
  Forall (λ a, a < pos) l → insert_after l pos = l ++ [pos].
Proof.
  induction 1 as [|a l Ha _ IH]; simpl; [done|].
  destruct (Z.ltb_spec a pos); [by rewrite IH | lia].
Qed.

Lemma insert_last (l : list Z) (pos : Z) :
  Forall (λ a, a < pos) l → insert l pos = l ++ [pos].
Proof.
  intros H. destruct H as [|a l Ha H]; simpl; [done|].
  destruct (Z.geb_spec a pos); [lia|]. by rewrite insert_after_last.
Qed.

Lemma range_sorted (lo hi : Z) : StronglySorted Z.lt (range lo hi).
Proof.
  unfold range. generalize (Z.to_nat (hi - lo)) as n. intros n. revert lo.
  induction n as [|n IH]; intros lo; simpl; constructor; [apply IH|].
  apply Forall_forall. intros a Ha%elem_of_count_up. lia.
Qed.

Lemma filter_sorted (P : Z → Prop) `{!∀ a, Decision (P a)} (l : list Z) :
  StronglySorted Z.lt l → StronglySorted Z.lt (filter P l).
Proof.
  induction 1 as [|a l _ IH Ha]; [constructor|].
  rewrite filter_cons. case_decide; [|done]. constructor; [done|].
  rewrite Forall_forall in *. intros b [_ Hb]%list_elem_of_filter. auto.
Qed.

Lemma sorted_NoDup (l : list Z) : StronglySorted Z.lt l → NoDup l.
Proof.
  induction 1 as [|a l _ IH Ha]; constructor; [|done].
  rewrite Forall_forall in Ha. intros Hin. specialize (Ha a Hin). lia.
Qed.

(** ** The copy into the array *)

Lemma copy_into_array (pdb : list string) (l : list Z) (done_ : list (option string))
    (m : nat) :
  foldl (λ '(r, j) pos, (<[Z.to_nat j := Some (str pdb pos)]> r, j + 1))
        (done_ ++ replicate (length l + m) None, Z.of_nat (length done_)) l
  = (done_ ++ ((λ pos, Some (str pdb pos)) <$> l) ++ replicate m None,
     Z.of_nat (length done_ + length l)).
Proof.
  revert done_. induction l as [|pos l IH]; intros done_.
  { cbn. do 2 f_equal. lia. }
  cbn [foldl length Nat.add]. rewrite replicate_S.
  rewrite Nat2Z.id.
  replace (<[length done_ := Some (str pdb pos)]> (done_ ++ None :: replicate (length l + m) None))
    with ((done_ ++ [Some (str pdb pos)]) ++ replicate (length l + m) None).
  2:{ rewrite insert_app_r_alt, Nat.sub_diag by lia. by rewrite <- app_assoc. }
  replace (Z.of_nat (length done_) + 1) with (Z.of_nat (length (done_ ++ [Some (str pdb pos)])))
    by (rewrite length_app; cbn [length]; lia).
  rewrite IH. rewrite length_app. cbn [length fmap list_fmap].
  rewrite <- app_assoc. cbn [app]. do 2 f_equal. lia.
Qed.

Lemma to_array_spec (pdb : list string) (s : istate) :
  count s = Z.of_nat (length (reslist s)) →
  to_array pdb s = ((λ pos, Some (str pdb pos)) <$> reslist s) ++ [None].
Proof.
  intros Hc. unfold to_array. rewrite Hc.
  replace (Z.to_nat (Z.of_nat (length (reslist s)) + 1)) with (length (reslist s) + 1)%nat by lia.
  pose proof (copy_into_array pdb (reslist s) [] 1) as H. cbn [app length] in H.
  change (Z.of_nat 0) with 0 in H. rewrite H. cbn [Nat.add]. rewrite Nat2Z.id. cbn [replicate].
  apply list_insert_id. rewrite lookup_app_r by (rewrite length_fmap; lia).
  rewrite length_fmap, Nat.sub_diag. done.
Qed.

(** ** The loop over the atoms *)

Section interface.

Context (g : gmap Z Z) (nx ny nz : Z) (atoms reference sincos : list float)
  (step probe : float).

Lemma interface_voxel_cases (atom : Z) (x y z H : float) (s : istate) (v : Z * Z * Z) :
  interface_voxel nx ny nz g x y z H atom s v =
  if touching_voxel nx ny nz g x y z H v then
    if negb (old_atom s =? atom)
    then IState (insert (reslist s) atom) (count s + 1) atom
    else IState (reslist s) (count s) atom
  else s.
Proof.
  destruct v as [[i j] k]. unfold interface_voxel, touching_voxel.
  destruct (_ && _); [|done]. destruct (_ =? 1); [|done]. by destruct (_ <=? _)%float.
Qed.

(** Once the atom is in the list, the rest of its voxels change nothing. *)
Lemma interface_voxels_done (atom : Z) (x y z H : float) (l : list (Z * Z * Z))
    (r : list Z) (c : Z) :
  foldl (interface_voxel nx ny nz g x y z H atom) (IState r c atom) l = IState r c atom.
Proof.
  apply (foldl_invariant (λ s, s = IState r c atom)); [done|].
  intros v s _ ->. rewrite interface_voxel_cases. cbn [old_atom reslist count].
  rewrite Z.eqb_refl. by destruct (touching_voxel _ _ _ _ _ _ _ _ _).
Qed.

Lemma interface_voxels_spec (atom : Z) (x y z H : float) (l : list (Z * Z * Z))
    (s : istate) :
  old_atom s ≠ atom →
  foldl (interface_voxel nx ny nz g x y z H atom) s l =
  if existsb (touching_voxel nx ny nz g x y z H) l
  then IState (insert (reslist s) atom) (count s + 1) atom
  else s.
Proof.
  intros Hs. induction l as [|v l IH]; cbn [foldl existsb]; [done|].
  rewrite interface_voxel_cases.
  destruct (touching_voxel nx ny nz g x y z H v); cbn [orb]; [|done].
  destruct (Z.eqb_spec (old_atom s) atom); [done|]. cbn [negb].
  apply interface_voxels_done.
Qed.

Lemma interface_atom_spec (atom : Z) (s : istate) :
  old_atom s ≠ atom →
  interface_atom g nx ny nz atoms reference sincos step probe s atom =
  if touches g nx ny nz atoms reference sincos step probe atom
  then IState (insert (reslist s) atom) (count s + 1) atom
  else s.
Proof.
  intros Hs. unfold interface_atom, touches.
  destruct (grid_coords atoms reference sincos step atom) as [[x y] z].
  by apply interface_voxels_spec.
Qed.

Lemma interface_scan_spec (n : nat) :
  let s := interface_scan g nx ny nz atoms (Z.of_nat n) reference sincos step probe in
  reslist s
  = filter (λ a, touches g nx ny nz atoms reference sincos step probe a = true)
           (range 0 (Z.of_nat n))
  ∧ count s = Z.of_nat (length (reslist s))
  ∧ old_atom s < Z.of_nat n.
Proof.
  unfold interface_scan. induction n as [|n IH].
  { rewrite range_empty by lia. cbn [foldl reslist count old_atom length].
    split; [done|]. split; [done|lia]. }
  replace (Z.of_nat (S n)) with (Z.of_nat n + 1) by lia.
  rewrite range_snoc by lia. rewrite foldl_snoc. cbv zeta in IH |- *.
  destruct IH as (Hr & Hc & Ho).
  rewrite interface_atom_spec by lia. rewrite filter_app, <- Hr.
  destruct (touches g nx ny nz atoms reference sincos step probe (Z.of_nat n)) eqn:Ht.
  - cbn [reslist count old_atom]. rewrite filter_cons_True, filter_nil by done.
    rewrite insert_last.
    + split; [done|]. split; [|lia]. rewrite length_app. cbn [length]. lia.
    + rewrite Hr. apply Forall_forall. intros a [_ Ha%elem_of_range]%list_elem_of_filter. lia.
  - rewrite filter_cons_False, filter_nil, app_nil_r by (rewrite Ht; done).
    split; [done|]. split; [done|lia].
Qed.

Lemma interface_scan_reslist (natoms : Z) :
  let s := interface_scan g nx ny nz atoms natoms reference sincos step probe in
  reslist s
  = filter (λ a, touches g nx ny nz atoms reference sincos step probe a = true)
           (range 0 natoms)
  ∧ count s = Z.of_nat (length (reslist s)).
Proof.
  destruct (Z.le_gt_cases natoms 0) as [Hn|Hn].
  - unfold interface_scan. rewrite range_empty by lia. done.
  - pose proof (interface_scan_spec (Z.to_nat natoms)) as H.
    rewrite Z2Nat.id in H by lia. cbv zeta in H |- *. tauto.
Qed.

Lemma _interface_spec (natoms nthreads : Z) (pdb : list string) :
  _interface g nx ny nz pdb atoms natoms reference sincos step probe nthreads
  = ((λ pos, Some (str pdb pos))
       <$> reslist (interface_scan g nx ny nz atoms natoms reference sincos step probe))
    ++ [None].
Proof. unfold _interface. apply to_array_spec. apply (interface_scan_reslist natoms). Qed.

(** What the claim C4 says of [_interface] holds with the ranges of the
    indices opened at 0: an atom touches when a voxel with
    [0 < i < nx], [0 < j < ny], [0 < k < nz] in the cube scanned around it
    has tag 1 and lies within H of its centre. *)
Lemma touches_iff (atom : Z) :
  touches g nx ny nz atoms reference sincos step probe atom = true ↔
  ∃ i j k,
    let '(x, y, z) := grid_coords atoms reference sincos step atom in
    let H := reach atoms step probe atom in
    (i, j, k) ∈ around x y z H
    ∧ 0 < i < nx ∧ 0 < j < ny ∧ 0 < k < nz
    ∧ rd g (idx ny nz i j k) = 1
    ∧ (distance i j k x y z <=? H)%float = true.
Proof.
  unfold touches. destruct (grid_coords atoms reference sincos step atom) as [[x y] z].
  rewrite existsb_exists. split.
  - intros ([[i j] k] & Hin & Ht). exists i, j, k. unfold touching_voxel in Ht.
    rewrite !andb_true_iff in Ht. rewrite <- list_elem_of_In in Hin.
    destruct Ht as [Hb Hd]. repeat split; (done || lia).
  - intros (i & j & k & Hin & Hi & Hj & Hk & Ht & Hd). exists (i, j, k).
    rewrite <- list_elem_of_In. split; [done|].
    unfold touching_voxel. rewrite !andb_true_iff. repeat split; (done || lia).
Qed.

(** C5.  The array [_interface] returns lists the residues of the atoms in
    [reslist], and these atoms are, for every input, in strictly increasing
    order: each atom that touches the surface once, and no other. *)
Theorem C5_residues_strictly_increasing (natoms nthreads : Z) (pdb : list string) :
  let l := reslist (interface_scan g nx ny nz atoms natoms reference sincos step probe) in
  _interface g nx ny nz pdb atoms natoms reference sincos step probe nthreads
    = ((λ pos, Some (str pdb pos)) <$> l) ++ [None]
  ∧ StronglySorted Z.lt l
  ∧ NoDup l
  ∧ ∀ a, a ∈ l ↔
         0 ≤ a < natoms ∧ touches g nx ny nz atoms reference sincos step probe a = true.
Proof.
  cbv zeta. split; [apply _interface_spec|].
  destruct (interface_scan_reslist natoms) as [-> _].
  assert (Hs : StronglySorted Z.lt
                 (filter (λ a, touches g nx ny nz atoms reference sincos step probe a = true)
                         (range 0 natoms))) by apply filter_sorted, range_sorted.
  split; [done|]. split; [by apply sorted_NoDup|].
  intros a. rewrite list_elem_of_filter, elem_of_range. tauto.
Qed.

(** C10.  For every input the array [_interface] returns has one slot more
    than there are touching atoms, its last slot holds NULL, and when no atom
    touches the surface its first slot holds NULL. *)
Theorem C10_null_terminated (natoms nthreads : Z) (pdb : list string) :
  let touching :=
    filter (λ a, touches g nx ny nz atoms reference sincos step probe a = true)
           (range 0 natoms) in
  let residues :=
    _interface g nx ny nz pdb atoms natoms reference sincos step probe nthreads in
  length residues = S (length touching)
  ∧ last residues = Some None
  ∧ (touching = [] → residues !! 0%nat = Some None).
Proof.
  cbv zeta. rewrite _interface_spec.
  destruct (interface_scan_reslist natoms) as [-> _].
  split; [rewrite length_app, length_fmap; cbn [length]; lia|].
  split; [apply last_snoc|]. by intros ->.
Qed.

End interface.

(** ** Fuel *)

Lemma for_each_ext {A S : Type} (body body' : A → S → option S) (l : list A) (s s' : S) :
  (∀ a s s', body a s = Some s' → body' a s = Some s') →
  for_each body l s = Some s' → for_each body' l s = Some s'.
Proof.
  intros Hb. revert s. induction l as [|a l IH]; intros s; cbn [for_each]; [done|].
  destruct (body a s) as [s1|] eqn:E; [|done]. rewrite (Hb _ _ _ E). apply IH.
Qed.

(** A result of the marker does not depend on the fuel that was left over. *)
Lemma flood_and_fill_more_fuel (fuel fuel' : nat) (nx ny nz i j k tag : Z) (s s' : fstate) :
  (fuel ≤ fuel')%nat →
  flood_and_fill fuel nx ny nz i j k tag s = Some s' →
  flood_and_fill fuel' nx ny nz i j k tag s = Some s'.
Proof.
  revert fuel' i j k s s'. induction fuel as [|fuel IH]; intros fuel' i j k s s' Hle; [done|].
  destruct fuel' as [|fuel']; [lia|]. cbn [flood_and_fill].
  destruct (on_face nx ny nz i j k); [done|].
  destruct (if rd (grid s) (idx ny nz i j k) =? 1 then negb (big s) else false); [|done].
  destruct (negb (if points s + 1 =? 10000 then true else big s)); [|done].
  apply for_each_ext. intros [[x y] z] s1 s2. apply IH. lia.
Qed.

(** ** The first sweep of ses, away from the faces of index 0 *)

Lemma check_protein_neighbours_marked (g g' : gmap Z Z) (nx ny nz i j k : Z) :
  (∀ q, marked (rd g q) (rd g' q)) →
  check_protein_neighbours g nx ny nz i j k = true →
  check_protein_neighbours g' nx ny nz i j k = true.
Proof.
  intros Hm. unfold check_protein_neighbours. rewrite !existsb_exists.
  intros ([[x y] z] & Hin & Ht). exists (x, y, z). split; [done|].
  destruct (outside nx ny nz x y z); [done|].
  specialize (Hm (idx ny nz x y z)). unfold marked in Hm.
  rewrite orb_true_iff in *. lia.
Qed.

(** What the claim C6 says of the first sweep holds for a voxel none of
    whose indices is 0. *)
Lemma ses_pass_a_marks_inner_voxels (g : gmap Z Z) (nx ny nz : Z) (step probe : float)
    (i j k i2 j2 k2 : Z) :
  let aux := ceilZ (probe / step) in
  in_grid nx ny nz i j k →
  rd g (idx ny nz i j k) = 1 →
  check_protein_neighbours g nx ny nz i j k = true →
  0 < i2 < nx → 0 < j2 < ny → 0 < k2 < nz →
  i - aux ≤ i2 ≤ i + aux → j - aux ≤ j2 ≤ j + aux → k - aux ≤ k2 ≤ k + aux →
  rd g (idx ny nz i2 j2 k2) = 0 →
  (PrimFloat.sqrt (pow2 (of_int (i - i2)) + pow2 (of_int (j - j2)) + pow2 (of_int (k - k2)))
   <? probe / step)%float = true →
  rd (ses_pass_a g nx ny nz step probe) (idx ny nz i2 j2 k2) = -2.
Proof.
  intros aux Hv Hv1 Hvn Hi2 Hj2 Hk2 Hci Hcj Hck Hw0 Hd.
  pose proof (foldl_invariant_visited
    (λ pre g', (∀ q, marked (rd g q) (rd g' q))
               ∧ ((i, j, k) ∈ pre → rd g' (idx ny nz i2 j2 k2) = -2))
    (ses_mark nx ny nz step probe aux) (box 0 nx 0 ny 0 nz) g) as H.
  cbv beta in H. unfold ses_pass_a. apply H; [| |by apply elem_of_grid_box].
  { split; [by left|]. intros Hin. by apply not_elem_of_nil in Hin. }
  clear H. intros pre a g' _ [Hm Hdone].
  assert (Hm' : ∀ q, marked (rd g q) (rd (ses_mark nx ny nz step probe aux g' a) q)).
  { intros q. eapply marked_trans; [apply Hm | apply ses_mark_marks]. }
  split; [done|].
  intros [Hpre|Ha]%elem_of_app.
  - pose proof (ses_mark_marks nx ny nz aux step probe g' a (idx ny nz i2 j2 k2)) as Hq.
    rewrite (Hdone Hpre) in Hq. unfold marked in Hq. lia.
  - apply list_elem_of_singleton in Ha. subst a. unfold ses_mark.
    assert (Hv1' : rd g' (idx ny nz i j k) = 1).
    { specialize (Hm (idx ny nz i j k)). unfold marked in Hm. lia. }
    rewrite Hv1', (check_protein_neighbours_marked g g') by done. cbn [Z.eqb Pos.eqb].
    pose proof (foldl_invariant_visited
      (λ pre2 h, (∀ q, marked (rd g q) (rd h q))
                 ∧ ((i2, j2, k2) ∈ pre2 → rd h (idx ny nz i2 j2 k2) = -2))
      (ses_probe nx ny nz step probe i j k)
      (box (i - aux) (i + aux + 1) (j - aux) (j + aux + 1) (k - aux) (k + aux + 1)) g') as H.
    cbv beta in H. apply H; [| |apply elem_of_box; lia].
    { split; [done|]. intros Hin. by apply not_elem_of_nil in Hin. }
    clear H. intros pre2 w h _ [Hmh Hdoneh].
    assert (Hmh' : ∀ q, marked (rd g q) (rd (ses_probe nx ny nz step probe i j k h w) q)).
    { intros q. eapply marked_trans; [apply Hmh | apply ses_probe_marks]. }
    split; [done|].
    intros [Hpre2|Hw]%elem_of_app.
    + pose proof (ses_probe_marks nx ny nz i j k step probe h w (idx ny nz i2 j2 k2)) as Hq.
      rewrite (Hdoneh Hpre2) in Hq. unfold marked in Hq. lia.
    + apply list_elem_of_singleton in Hw. subst w. unfold ses_probe.
      replace ((i2 >? 0) && (j2 >? 0) && (k2 >? 0) && (i2 <? nx) && (j2 <? ny) && (k2 <? nz))
        with true.
      2:{ symmetry. rewrite !andb_true_iff. lia. }
      rewrite Hd.
      destruct (Z.eqb_spec (rd h (idx ny nz i2 j2 k2)) 0) as [E|E]; [apply rd_wr_eq|].
      specialize (Hmh (idx ny nz i2 j2 k2)). unfold marked in Hmh. lia.
Qed.

(** C3 fails on the code.  On [u_grid] the scan reaches (1,1,1) first and
    opens cluster 2.  The marker tags the 10 000 voxels (1,1,1) to
    (10000,1,1) and sets [big].  The one turn [while (big)] makes resumes the
    marker at (10001,1,1), where it tags that voxel, (10001,1,2) and then
    (10000,1,3) down to (3,1,3) before it runs out of budget again; the turn
    goes on to its last voxel, which clears [big], and the loop ends.  The
    voxels (1,1,3) and (2,1,3) were passed before any neighbour of theirs was
    tagged: when the processing of cluster 2 ends, (2,1,3) still carries 1,
    lies off the faces, and has the neighbour (3,1,3) tagged 2, so that the
    test of the rescan would still succeed there. *)
Theorem C3_completion_loop_stops_early :
  (λ c, (ctag c, big (cfs c),
         rd (grid (cfs c)) (idx 3 5 3 1 3),
         rd (grid (cfs c)) (idx 3 5 2 1 3),
         check_unclustered_neighbours (grid (cfs c)) 10003 3 5 2 1 3))
    <$> scan_step 10003 3 5 (1, 1, 1) (CState (FState u_grid 0 false) 1)
  = Some (2, false, 2, 1, 2)
  ∧ on_face 10003 3 5 2 1 3 = false.
Proof. split; vm_compute; reflexivity. Qed.

(** The scan later opens cluster 3 at (1,1,3), and the closing sweep keeps
    (3,1,3) and drops its neighbour (2,1,3). *)
Lemma u_grid_split :
  (λ g, (rd g (idx 3 5 3 1 3), rd g (idx 3 5 2 1 3)))
    <$> filter_enclosed_regions u_grid 10003 3 5
  = Some (1, 0).
Proof. vm_compute. reflexivity. Qed.

(** C4 fails on the code.  For one atom of radius 1 centred on the corner
    voxel of a 4x4x4 grid (step 1, probe 0, no rotation), the grid that
    [_surface] returns has tag 1 at (1,0,0), (0,1,0) and (0,0,1), all three
    within the grid and at distance 1 = H from the centre of the atom; each
    has an index equal to 0, the test [i > 0 && j > 0 && k > 0] of
    [_interface] refuses them, and the array returned holds no residue. *)
Theorem C4_voxels_at_index_0_ignored :
  (λ g, (rd g (idx 4 4 1 0 0), rd g (idx 4 4 0 1 0), rd g (idx 4 4 0 0 1),
         _interface g 4 4 4 ["A1"%string] corner_atom 1 origin no_rotation 1 0 1))
    <$> _surface ∅ 64 4 4 4 corner_atom 1 origin no_rotation 1 0 false 1
  = Some (1, 1, 1, [None])
  ∧ grid_coords corner_atom origin no_rotation 1 0 = (0, 0, 0)%float
  ∧ reach corner_atom 1 0 0 = 1%float
  ∧ (distance 1 0 0 0 0 0 <=? 1)%float = true.
Proof. vm_compute. done. Qed.

(** C6 fails on the code.  In a 3x3x3 grid whose planes [i = 0] and [i = 2]
    are bulk and whose plane [i = 1] is solvent (step 1, probe 1.5), the
    voxel (1,1,1) carries 1 and has bulk neighbours; (0,1,1) and (2,1,1) both
    carry 0, lie within the grid and within the cube of radius 2 around
    (1,1,1), at distance 1 < 1.5.  The first sweep marks (2,1,1) and leaves
    (0,1,1), which the test [i2 > 0 && j2 > 0 && k2 > 0] refuses. *)
Theorem C6_voxels_at_index_0_not_marked :
  let g := fill (igrid ∅ 27) 3 3 3 wall_atoms 2 origin no_rotation 1 1.5 in
  rd g (idx 3 3 1 1 1) = 1
  ∧ rd g (idx 3 3 0 1 1) = 0
  ∧ rd g (idx 3 3 2 1 1) = 0
  ∧ check_protein_neighbours g 3 3 3 1 1 1 = true
  ∧ ceilZ (1.5 / 1) = 2
  ∧ (PrimFloat.sqrt (pow2 (of_int (1 - 0)) + pow2 (of_int (1 - 1)) + pow2 (of_int (1 - 1)))
     <? 1.5 / 1)%float = true
  ∧ rd (ses_pass_a g 3 3 3 1 1.5) (idx 3 3 0 1 1) = 0
  ∧ rd (ses_pass_a g 3 3 3 1 1.5) (idx 3 3 2 1 1) = -2.
Proof. vm_compute. done. Qed.

(** * The stages one by one *)

(** ** Sweeps that write one value *)

Lemma foldl_writes (c : Z) {A : Type} (body : gmap Z Z → A → gmap Z Z) (hit : A → Z → bool)
    (l : list A) (g : gmap Z Z) (q : Z) :
  (∀ g a q, rd (body g a) q = if hit a q then c else rd g q) →
  rd (foldl body g l) q = if existsb (λ a, hit a q) l then c else rd g q.
Proof.
  intros Hb. revert g. induction l as [|a l IH]; intros g; cbn [foldl existsb]; [done|].
  rewrite IH, Hb. destruct (hit a q); cbn [orb]; [|done]. by destruct (existsb _ l).
Qed.

Lemma existsb_same_elements {A : Type} (f : A → bool) (l l' : list A) :
  (∀ a, a ∈ l ↔ a ∈ l') → existsb f l = existsb f l'.
Proof.
  intros H. apply eq_true_iff_eq. rewrite !existsb_exists.
  split; intros (a & Ha & Hf); exists a; (split; [|done]);
    apply list_elem_of_In, H, list_elem_of_In, Ha.
Qed.

(** ** fill *)

Lemma fill_voxel_rd (nx ny nz : Z) (x y z H : float) (g : gmap Z Z) (v : Z * Z * Z) (q : Z) :
  rd (fill_voxel nx ny nz x y z H g v) q
  = if carving_voxel nx ny nz x y z H q v then 0 else rd g q.
Proof.
  destruct v as [[i j] k]. unfold fill_voxel, carving_voxel.
  destruct (_ <? _)%float; [|done]. cbn [andb].
  destruct ((i >=? 0) && (i <? nx) && (j >=? 0) && (j <? ny) && (k >=? 0) && (k <? nz));
    [|done]. cbn [andb].
  destruct (Z.eqb_spec (idx ny nz i j k) q) as [->|Hne];
    [apply rd_wr_eq | by apply rd_wr_ne].
Qed.

Lemma fill_atom_rd (nx ny nz : Z) (atoms reference sincos : list float) (step probe : float)
    (g : gmap Z Z) (atom q : Z) :
  rd (fill_atom nx ny nz atoms reference sincos step probe g atom) q
  = if carves nx ny nz atoms reference sincos step probe q atom then 0 else rd g q.
Proof.
  unfold fill_atom, carves.
  destruct (grid_coords atoms reference sincos step atom) as [[x y] z].
  apply (foldl_writes 0 _ (λ v q, carving_voxel nx ny nz x y z _ q v)).
  intros. apply fill_voxel_rd.
Qed.

Lemma fill_atoms_rd (nx ny nz : Z) (atoms reference sincos : list float) (step probe : float)
    (l : list Z) (g : gmap Z Z) (q : Z) :
  rd (foldl (fill_atom nx ny nz atoms reference sincos step probe) g l) q
  = if existsb (carves nx ny nz atoms reference sincos step probe q) l then 0 else rd g q.
Proof.
  apply (foldl_writes 0 _ (λ a q, carves nx ny nz atoms reference sincos step probe q a)).
  intros. apply fill_atom_rd.
Qed.

Lemma carves_in_grid (nx ny nz : Z) (atoms reference sincos : list float) (step probe : float)
    (q atom : Z) :
  carves nx ny nz atoms reference sincos step probe q atom = true →
  ∃ i j k, in_grid nx ny nz i j k ∧ q = idx ny nz i j k.
Proof.
  unfold carves. destruct (grid_coords atoms reference sincos step atom) as [[x y] z].
  rewrite existsb_exists. intros ([[i j] k] & _ & Hc). exists i, j, k.
  unfold carving_voxel in Hc. rewrite !andb_true_iff in Hc. unfold in_grid. lia.
Qed.

(** X1.  [igrid] sets the cells 0 to [size - 1] to 1, whatever they held, and
    leaves every other cell as it was. *)
Theorem X1_igrid_cells (g : gmap Z Z) (size p : Z) :
  (0 ≤ p < size → rd (igrid g size) p = 1)
  ∧ (¬ 0 ≤ p < size → rd (igrid g size) p = rd g p).
Proof. rewrite igrid_rd. split; intros H; [by rewrite decide_True | by rewrite decide_False]. Qed.

(** X2.  [fill] writes nothing but 0, and writes it only to cells that store a
    voxel of the grid: every cell either keeps its value or is the cell of a
    voxel within the grid and holds 0. *)
Theorem X2_fill_writes_bulk_inside_grid (g : gmap Z Z) (nx ny nz natoms : Z)
    (atoms reference sincos : list float) (step probe : float) (q : Z) :
  rd (fill g nx ny nz atoms natoms reference sincos step probe) q = rd g q
  ∨ (rd (fill g nx ny nz atoms natoms reference sincos step probe) q = 0
     ∧ ∃ i j k, in_grid nx ny nz i j k ∧ q = idx ny nz i j k).
Proof.
  unfold fill. rewrite fill_atoms_rd.
  destruct (existsb _ _) eqn:E; [|by left]. right. split; [done|].
  apply existsb_exists in E as (atom & _ & Hc). by eapply carves_in_grid.
Qed.

(** X3.  The grid [fill] leaves does not depend on the order in which the
    atoms are taken: going through any list that holds the same atoms as
    [0 .. natoms - 1], in any order and with any repetition, gives every cell
    the value [fill] gives it. *)
Theorem X3_fill_order_of_atoms (g : gmap Z Z) (nx ny nz natoms : Z)
    (atoms reference sincos : list float) (step probe : float) (l : list Z) (q : Z) :
  (∀ a, a ∈ l ↔ 0 ≤ a < natoms) →
  rd (foldl (fill_atom nx ny nz atoms reference sincos step probe) g l) q
  = rd (fill g nx ny nz atoms natoms reference sincos step probe) q.
Proof.
  intros Hl. unfold fill. rewrite !fill_atoms_rd.
  rewrite (existsb_same_elements _ l (range 0 natoms)); [done|].
  intros a. rewrite Hl, elem_of_range. done.
Qed.

Lemma X3_fill_order_of_atoms_witness :
  (∀ a, a ∈ [1; 0; 1] ↔ 0 ≤ a < 2)
  ∧ rd (foldl (fill_atom 3 3 3 wall_atoms origin no_rotation 1 1.5) (igrid ∅ 27) [1; 0; 1])
       (idx 3 3 0 1 1)
    = rd (fill (igrid ∅ 27) 3 3 3 wall_atoms 2 origin no_rotation 1 1.5) (idx 3 3 0 1 1).
Proof.
  assert (H : ∀ a, a ∈ [1; 0; 1] ↔ 0 ≤ a < 2).
  { intros a. rewrite !elem_of_cons, elem_of_nil. lia. }
  split; [exact H|].
  exact (X3_fill_order_of_atoms (igrid ∅ 27) 3 3 3 2 wall_atoms origin no_rotation 1 1.5
           [1; 0; 1] (idx 3 3 0 1 1) H).
Defined.

(** X4.  After [igrid] over the whole grid and [fill], every voxel of the grid
    carries 0 or 1. *)
Theorem X4_filled_grid_tags (g : gmap Z Z) (nx ny nz natoms : Z)
    (atoms reference sincos : list float) (step probe : float) (i j k : Z) :
  in_grid nx ny nz i j k →
  let t := rd (fill (igrid g (nx * ny * nz)) nx ny nz atoms natoms reference sincos
                    step probe) (idx ny nz i j k) in
  t = 0 ∨ t = 1.
Proof.
  intros Hin. cbv zeta. unfold fill. rewrite fill_atoms_rd.
  destruct (existsb _ _); [by left|]. right. by apply igrid_tags.
Qed.

Lemma X4_filled_grid_tags_witness :
  in_grid 3 3 3 0 1 1
  ∧ (rd (fill (igrid ∅ (3 * 3 * 3)) 3 3 3 wall_atoms 2 origin no_rotation 1 1.5)
        (idx 3 3 0 1 1) = 0
     ∨ rd (fill (igrid ∅ (3 * 3 * 3)) 3 3 3 wall_atoms 2 origin no_rotation 1 1.5)
          (idx 3 3 0 1 1) = 1).
Proof.
  assert (H : in_grid 3 3 3 0 1 1) by (unfold in_grid; lia).
  split; [exact H|].
  exact (X4_filled_grid_tags ∅ 3 3 3 2 wall_atoms origin no_rotation 1 1.5 0 1 1 H).
Defined.

Lemma misses_grid_voxels (nx ny nz : Z) (x y z H : float) (i j k : Z) :
  (ceilZ (x + H) <? 0) || (nx <=? floorZ (x - H))
  || (ceilZ (y + H) <? 0) || (ny <=? floorZ (y - H))
  || (ceilZ (z + H) <? 0) || (nz <=? floorZ (z - H)) = true →
  (i, j, k) ∈ around x y z H →
  ¬ (0 ≤ i < nx ∧ 0 ≤ j < ny ∧ 0 ≤ k < nz).
Proof.
  rewrite !orb_true_iff. unfold around. rewrite elem_of_box. lia.
Qed.

(** ** Cubes within the range of the counters *)

Lemma int_bound_spec (f : float) :
  int_bound f = true → INT_MIN ≤ floorZ f ∧ ceilZ f ≤ INT_MAX - 1.
Proof.
  unfold int_bound. destruct (Prim2SF f) eqn:E; try done;
    rewrite andb_true_iff; lia.
Qed.

(** Around an atom whose cube is within the range of the counters, every
    value a counter takes, and the value it leaves its loop with, is an
    [int]. *)
Lemma cube_in_int_range_around (atoms reference sincos : list float) (step probe : float)
    (atom i j k : Z) :
  cube_in_int_range atoms reference sincos step probe atom = true →
  (let '(x, y, z) := grid_coords atoms reference sincos step atom in
   (i, j, k) ∈ around x y z (reach atoms step probe atom)) →
  INT_MIN ≤ i < INT_MAX ∧ INT_MIN ≤ j < INT_MAX ∧ INT_MIN ≤ k < INT_MAX.
Proof.
  unfold cube_in_int_range, around.
  destruct (grid_coords atoms reference sincos step atom) as [[x y] z].
  rewrite !andb_true_iff, elem_of_box.
  intros (((((Hx1%int_bound_spec & Hx2%int_bound_spec) & Hy1%int_bound_spec)
             & Hy2%int_bound_spec) & Hz1%int_bound_spec) & Hz2%int_bound_spec).
  lia.
Qed.

(** X5.  An atom whose scanned cube is within the range of the [int]
    counters, so that the loops around it end, and misses the grid has no
    effect: the loops of [fill] around it leave the grid as it was, and
    [_interface] does not list it. *)
Theorem X5_atom_off_the_grid (g h : gmap Z Z) (nx ny nz natoms atom : Z)
    (atoms reference sincos : list float) (step probe : float) :
  cube_in_int_range atoms reference sincos step probe atom = true →
  misses_grid nx ny nz atoms reference sincos step probe atom = true →
  fill_atom nx ny nz atoms reference sincos step probe g atom = g
  ∧ atom ∉ reslist (interface_scan h nx ny nz atoms natoms reference sincos step probe).
Proof.
  unfold misses_grid. intros _ Hm. split.
  - unfold fill_atom. destruct (grid_coords atoms reference sincos step atom) as [[x y] z].
    apply (foldl_invariant (λ g', g' = g)); [done|].
    intros [[i j] k] g' Hv ->. pose proof (misses_grid_voxels _ _ _ _ _ _ _ _ _ _ Hm Hv) as Hn.
    unfold fill_voxel. destruct (_ <? _)%float; [|done].
    destruct ((i >=? 0) && (i <? nx) && (j >=? 0) && (j <? ny) && (k >=? 0) && (k <? nz))
      eqn:E; [|done].
    rewrite !andb_true_iff in E. lia.
  - destruct (interface_scan_reslist h nx ny nz atoms reference sincos step probe natoms)
      as [-> _].
    rewrite list_elem_of_filter. intros [Ht _]. revert Ht. unfold touches.
    destruct (grid_coords atoms reference sincos step atom) as [[x y] z].
    rewrite existsb_exists. intros ([[i j] k] & Hv & Ht).
    apply list_elem_of_In in Hv.
    pose proof (misses_grid_voxels _ _ _ _ _ _ _ _ _ _ Hm Hv) as Hn.
    unfold touching_voxel in Ht. rewrite !andb_true_iff in Ht. lia.
Qed.

Lemma X5_atom_off_the_grid_witness :
  cube_in_int_range far_atom origin no_rotation 1 0 0 = true
  ∧ misses_grid 3 3 3 far_atom origin no_rotation 1 0 0 = true
  ∧ fill_atom 3 3 3 far_atom origin no_rotation 1 0 (igrid ∅ 27) 0 = igrid ∅ 27
  ∧ 0 ∉ reslist (interface_scan (igrid ∅ 27) 3 3 3 far_atom 1 origin no_rotation 1 0).
Proof.
  assert (H0 : cube_in_int_range far_atom origin no_rotation 1 0 0 = true)
    by (vm_compute; reflexivity).
  assert (H : misses_grid 3 3 3 far_atom origin no_rotation 1 0 0 = true)
    by (vm_compute; reflexivity).
  split; [exact H0|]. split; [exact H|].
  exact (X5_atom_off_the_grid (igrid ∅ 27) (igrid ∅ 27) 3 3 3 1 0 far_atom origin
           no_rotation 1 0 H0 H).
Defined.

(** ** Square roots against zero *)

Lemma SFsqrt_not_below_zero (a t : spec_float) :
  (∃ s, t = S754_zero s) ∨ t = S754_nan →
  SFltb (SFsqrt prec emax a) t = false.
Proof.
  intros Ht. unfold SFltb.
  assert (Ha : match SFsqrt prec emax a with
               | S754_infinity true | S754_finite true _ _ => False
               | _ => True
               end).
  { destruct a as [s| [|] | |[|] m e]; cbn [SFsqrt]; try done.
    destruct (SFsqrt_core_binary prec emax (Z.pos m) e) as [[mz ez] lz].
    unfold binary_round_aux.
    destruct (shr_fexp prec emax mz ez lz) as [mrs' e'].
    destruct (shr_fexp prec emax _ e' loc_Exact) as [mrs'' e''].
    destruct (shr_m mrs''); [done| |done]. by destruct (_ <=? _). }
  destruct Ht as [[s ->]| ->].
  - destruct (SFsqrt prec emax a) as [s'|[|]| |[|] m e]; done.
  - by destruct (SFsqrt prec emax a) as [s'|[|]| |[|] m e].
Qed.

Lemma sqrt_not_below_zero_over (a step : float) :
  (PrimFloat.sqrt a <? 0 / step)%float = false.
Proof.
  rewrite FloatAxioms.ltb_spec, FloatAxioms.sqrt_spec, FloatAxioms.div_spec. apply SFsqrt_not_below_zero.
  change (Prim2SF 0) with (S754_zero false). unfold SF64div.
  destruct (Prim2SF step) as [s|s| |s m e]; cbn [SFdiv]; eauto.
Qed.

(** ** ses without a probe *)

Lemma ses_pass_a_no_probe (g : gmap Z Z) (nx ny nz : Z) (step : float) :
  ses_pass_a g nx ny nz step 0 = g.
Proof.
  unfold ses_pass_a. apply (foldl_invariant (λ g', g' = g)); [done|].
  intros [[i j] k] g' _ ->. unfold ses_mark.
  destruct (_ =? 1); [|done]. destruct (check_protein_neighbours _ _ _ _ _ _ _); [|done].
  apply (foldl_invariant (λ g', g' = g)); [done|].
  intros [[i2 j2] k2] g' _ ->. unfold ses_probe.
  rewrite sqrt_not_below_zero_over. by destruct (_ && _).
Qed.

(** X6.  With [probe = 0] the first sweep of [ses] changes nothing, whatever
    [step] is, so that [ses] does no more than turn into 1 the voxels of the
    grid that carried -2: a grid without -2 comes back as it was. *)
Theorem X6_ses_without_probe (g : gmap Z Z) (nx ny nz : Z) (step : float) :
  ses_pass_a g nx ny nz step 0 = g
  ∧ ∀ i j k, in_grid nx ny nz i j k →
      rd (ses g nx ny nz step 0) (idx ny nz i j k)
      = if rd g (idx ny nz i j k) =? -2 then 1 else rd g (idx ny nz i j k).
Proof.
  split; [apply ses_pass_a_no_probe|]. intros i j k Hin. unfold ses.
  rewrite ses_pass_a_no_probe. by apply ses_pass_b_rd.
Qed.

(** ** Where the first sweep of ses writes *)

Lemma marked_inside_trans (nx ny nz : Z) (g g' g'' : gmap Z Z) (q : Z) :
  marked_inside nx ny nz g g' q → marked_inside nx ny nz g' g'' q →
  marked_inside nx ny nz g g'' q.
Proof.
  unfold marked_inside. intros [E|(E0 & E2 & Hv)] [E'|(E0' & E2' & Hv')].
  - left. congruence.
  - right. rewrite <- E. done.
  - right. rewrite E'. done.
  - lia.
Qed.

Lemma ses_probe_marks_inside (nx ny nz i j k : Z) (step probe : float) (g : gmap Z Z)
    (w : Z * Z * Z) (q : Z) :
  marked_inside nx ny nz g (ses_probe nx ny nz step probe i j k g w) q.
Proof.
  destruct w as [[i2 j2] k2]. unfold ses_probe.
  destruct ((i2 >? 0) && (j2 >? 0) && (k2 >? 0) && (i2 <? nx) && (j2 <? ny) && (k2 <? nz))
    eqn:Hb; [|by left].
  destruct (_ <? _)%float; [|by left].
  destruct (Z.eqb_spec (rd g (idx ny nz i2 j2 k2)) 0) as [E|E]; [|by left].
  destruct (decide (idx ny nz i2 j2 k2 = q)) as [<-|Hne].
  - right. rewrite rd_wr_eq. split; [done|]. split; [done|]. exists i2, j2, k2.
    rewrite !andb_true_iff in Hb. lia.
  - left. by apply rd_wr_ne.
Qed.

Lemma ses_mark_marks_inside (nx ny nz aux : Z) (step probe : float) (g : gmap Z Z)
    (v : Z * Z * Z) (q : Z) :
  marked_inside nx ny nz g (ses_mark nx ny nz step probe aux g v) q.
Proof.
  destruct v as [[i j] k]. unfold ses_mark.
  destruct (_ =? 1); [|by left]. destruct (check_protein_neighbours _ _ _ _ _ _ _); [|by left].
  revert q. apply (foldl_invariant (λ g', ∀ q, marked_inside nx ny nz g g' q)); [by left|].
  intros w g' _ IH q. eapply marked_inside_trans; [apply IH | apply ses_probe_marks_inside].
Qed.

Lemma ses_pass_a_marks_inside (g : gmap Z Z) (nx ny nz : Z) (step probe : float) (q : Z) :
  marked_inside nx ny nz g (ses_pass_a g nx ny nz step probe) q.
Proof.
  unfold ses_pass_a. revert q.
  apply (foldl_invariant (λ g', ∀ q, marked_inside nx ny nz g g' q)); [by left|].
  intros v g' _ IH q. eapply marked_inside_trans; [apply IH | apply ses_mark_marks_inside].
Qed.

(** X7.  The first sweep of [ses] writes nothing but -2, only over a 0, and
    only to voxels of the grid whose three indices are all at least 1; a voxel
    of the grid with an index equal to 0 comes out of it as it went in. *)
Theorem X7_ses_first_sweep_writes (g : gmap Z Z) (nx ny nz : Z) (step probe : float) :
  (∀ q, marked_inside nx ny nz g (ses_pass_a g nx ny nz step probe) q)
  ∧ ∀ i j k, in_grid nx ny nz i j k → i = 0 ∨ j = 0 ∨ k = 0 →
      rd (ses_pass_a g nx ny nz step probe) (idx ny nz i j k) = rd g (idx ny nz i j k).
Proof.
  split; [apply ses_pass_a_marks_inside|]. intros i j k Hin H0.
  destruct (ses_pass_a_marks_inside g nx ny nz step probe (idx ny nz i j k))
    as [E|(_ & _ & i' & j' & k' & Hi & Hj & Hk & E)]; [done|].
  unfold in_grid in Hin. apply idx_inj in E; lia.
Qed.

(** X8.  One run of [ses] leaves no -2 in the grid and takes no voxel away from
    the solvent: a voxel tagged 0 ends as 0 or 1, a voxel tagged -2 ends as 1,
    and a voxel with any other tag keeps it. *)
Theorem X8_ses_only_removes_bulk (g : gmap Z Z) (nx ny nz i j k : Z) (step probe : float) :
  in_grid nx ny nz i j k →
  let t := rd g (idx ny nz i j k) in
  let t' := rd (ses g nx ny nz step probe) (idx ny nz i j k) in
  t' ≠ -2
  ∧ (t = 0 → t' = 0 ∨ t' = 1)
  ∧ (t = -2 → t' = 1)
  ∧ (t ≠ 0 → t ≠ -2 → t' = t).
Proof.
  intros Hin. cbv zeta.
  destruct (ses_rd g nx ny nz i j k step probe Hin) as (H1 & H2 & H3).
  split; [done|]. split; [done|]. unfold promoted in H2. split.
  - intros E. rewrite H2 by lia. by rewrite E.
  - intros E0 E2. rewrite H2 by done.
    by destruct (Z.eqb_spec (rd g (idx ny nz i j k)) (-2)).
Qed.

Lemma X8_ses_only_removes_bulk_witness :
  in_grid 2 2 5 1 1 2
  ∧ rd (ses lone_cell 2 2 5 1 1.5) (idx 2 5 1 1 2) ≠ -2
  ∧ (rd lone_cell (idx 2 5 1 1 2) = 0 →
     rd (ses lone_cell 2 2 5 1 1.5) (idx 2 5 1 1 2) = 0
     ∨ rd (ses lone_cell 2 2 5 1 1.5) (idx 2 5 1 1 2) = 1)
  ∧ (rd lone_cell (idx 2 5 1 1 2) = -2 → rd (ses lone_cell 2 2 5 1 1.5) (idx 2 5 1 1 2) = 1)
  ∧ (rd lone_cell (idx 2 5 1 1 2) ≠ 0 → rd lone_cell (idx 2 5 1 1 2) ≠ -2 →
     rd (ses lone_cell 2 2 5 1 1.5) (idx 2 5 1 1 2) = rd lone_cell (idx 2 5 1 1 2)).
Proof.
  assert (H : in_grid 2 2 5 1 1 2) by (unfold in_grid; lia).
  split; [exact H|].
  exact (X8_ses_only_removes_bulk lone_cell 2 2 5 1 1 2 1 1.5 H).
Defined.

(** ** Sweeps that decide each candidate by its neighbours *)

Section neighbour_sweep.

(** The sweep rewrites the voxels tagged 1: into 1 where a neighbour carries
    [T], into [B] elsewhere. *)
Context (nx ny nz T B : Z) (body : gmap Z Z → Z * Z * Z → gmap Z Z).
Context (HT : T ≠ 1) (HB1 : B ≠ 1) (HBT : B ≠ T).
Context (Hbody : ∀ g i j k q,
  rd (body g (i, j, k)) q =
  if decide (q = idx ny nz i j k ∧ rd g q = 1)
  then (if has_neighbour g nx ny nz T i j k then 1 else B)
  else rd g q).

Lemma has_neighbour_same (g g' : gmap Z Z) (i j k : Z) :
  (∀ x y z, in_grid nx ny nz x y z →
     (rd g (idx ny nz x y z) = T ↔ rd g' (idx ny nz x y z) = T)) →
  has_neighbour g nx ny nz T i j k = has_neighbour g' nx ny nz T i j k.
Proof.
  intros H. unfold has_neighbour. generalize (cube i j k) as l.
  induction l as [|[[x y] z] l IH]; cbn [existsb]; [done|]. rewrite IH. f_equal.
  destruct (outside nx ny nz x y z) eqn:E; [done|].
  apply outside_false in E. specialize (H x y z E).
  destruct (Z.eqb_spec (rd g (idx ny nz x y z)) T), (Z.eqb_spec (rd g' (idx ny nz x y z)) T);
    tauto.
Qed.

Lemma swept_keeps_T (g : gmap Z Z) (i j k : Z) :
  swept nx ny nz T B g i j k = T ↔ rd g (idx ny nz i j k) = T.
Proof.
  unfold swept. destruct (Z.eqb_spec (rd g (idx ny nz i j k)) 1) as [E|E]; [|done].
  destruct (has_neighbour g nx ny nz T i j k); lia.
Qed.

Lemma neighbour_sweep (g : gmap Z Z) (i j k : Z) :
  in_grid nx ny nz i j k →
  rd (foldl body g (box 0 nx 0 ny 0 nz)) (idx ny nz i j k) = swept nx ny nz T B g i j k.
Proof.
  pose proof (foldl_invariant_visited
    (λ pre g', ∀ i j k, in_grid nx ny nz i j k →
       (rd g' (idx ny nz i j k) = rd g (idx ny nz i j k)
        ∨ rd g' (idx ny nz i j k) = swept nx ny nz T B g i j k)
       ∧ ((i, j, k) ∈ pre → rd g' (idx ny nz i j k) = swept nx ny nz T B g i j k))
    body (box 0 nx 0 ny 0 nz) g) as H.
  cbv beta in H. intros Hin. apply H; [| |done|by apply elem_of_grid_box].
  { intros x y z _. split; [by left|]. intros Hq. by apply not_elem_of_nil in Hq. }
  clear H i j k Hin. intros pre [[a b] c] g' Ha IH i j k Hin.
  apply elem_of_grid_box in Ha. rewrite Hbody.
  assert (Hsame : has_neighbour g' nx ny nz T a b c = has_neighbour g nx ny nz T a b c).
  { apply has_neighbour_same. intros x y z Hx.
    destruct (IH x y z Hx) as [[->| ->] _]; [done|]. apply swept_keeps_T. }
  destruct (decide ((i, j, k) = (a, b, c))) as [E|E].
  - injection E as -> -> ->. destruct (IH a b c Ha) as [IH1 _].
    assert (Hnew : (if decide (idx ny nz a b c = idx ny nz a b c
                               ∧ rd g' (idx ny nz a b c) = 1)
                    then if has_neighbour g' nx ny nz T a b c then 1 else B
                    else rd g' (idx ny nz a b c)) = swept nx ny nz T B g a b c).
    { rewrite Hsame. case_decide as Hd.
      - destruct Hd as [_ Hd]. destruct IH1 as [E1|E1].
        + unfold swept. rewrite <- E1, Hd. done.
        + rewrite E1 in Hd. revert Hd. unfold swept.
          destruct (Z.eqb_spec (rd g (idx ny nz a b c)) 1); [|done].
          destruct (has_neighbour g nx ny nz T a b c); [done|]. intros ?. done.
      - destruct IH1 as [E1|E1]; [|done]. unfold swept.
        destruct (Z.eqb_spec (rd g (idx ny nz a b c)) 1) as [E'|E']; [|done].
        exfalso. apply Hd. split; [done|]. congruence. }
    rewrite Hnew. split; [by right|done].
  - rewrite decide_False.
    2:{ intros [Hidx _]. unfold in_grid in *. apply idx_inj in Hidx; [|lia..].
        apply E. f_equal; [f_equal|]; lia. }
    destruct (IH i j k Hin) as [IH1 IH2]. split; [done|].
    intros [?|Hq]%elem_of_app; [by apply IH2|].
    apply list_elem_of_singleton in Hq. done.
Qed.

(** A second sweep finds every voxel decided. *)
Lemma neighbour_sweep_twice (g : gmap Z Z) (i j k : Z) :
  in_grid nx ny nz i j k →
  rd (foldl body (foldl body g (box 0 nx 0 ny 0 nz)) (box 0 nx 0 ny 0 nz)) (idx ny nz i j k)
  = rd (foldl body g (box 0 nx 0 ny 0 nz)) (idx ny nz i j k).
Proof.
  intros Hin. rewrite neighbour_sweep by done. unfold swept at 1.
  rewrite (has_neighbour_same _ g).
  2:{ intros x y z Hx. rewrite neighbour_sweep by done. apply swept_keeps_T. }
  rewrite neighbour_sweep by done.
  destruct (Z.eqb_spec (swept nx ny nz T B g i j k) 1) as [E|E]; [|done].
  revert E. unfold swept. destruct (Z.eqb_spec (rd g (idx ny nz i j k)) 1); [|done].
  by destruct (has_neighbour g nx ny nz T i j k).
Qed.

(** After the sweep every voxel tagged 1 has a neighbour tagged [T]. *)
Lemma neighbour_sweep_candidates (g : gmap Z Z) (i j k : Z) :
  in_grid nx ny nz i j k →
  rd (foldl body g (box 0 nx 0 ny 0 nz)) (idx ny nz i j k) = 1 →
  has_neighbour (foldl body g (box 0 nx 0 ny 0 nz)) nx ny nz T i j k = true.
Proof.
  intros Hin. rewrite neighbour_sweep by done. intros E.
  rewrite (has_neighbour_same _ g).
  2:{ intros x y z Hx. rewrite neighbour_sweep by done. apply swept_keeps_T. }
  revert E. unfold swept. destruct (Z.eqb_spec (rd g (idx ny nz i j k)) 1); [|done].
  by destruct (has_neighbour g nx ny nz T i j k).
Qed.

End neighbour_sweep.

Lemma surface_voxel_rd (nx ny nz : Z) (g : gmap Z Z) (i j k q : Z) :
  rd (surface_voxel nx ny nz g (i, j, k)) q =
  if decide (q = idx ny nz i j k ∧ rd g q = 1)
  then (if has_neighbour g nx ny nz 0 i j k then 1 else -1)
  else rd g q.
Proof.
  unfold surface_voxel.
  change (define_surface_points g nx ny nz i j k)
    with (if has_neighbour g nx ny nz 0 i j k then 1 else -1).
  destruct (Z.eqb_spec (rd g (idx ny nz i j k)) 1) as [E|E].
  - destruct (decide (idx ny nz i j k = q)) as [<-|Hne].
    + rewrite rd_wr_eq. by rewrite decide_True.
    + rewrite rd_wr_ne by done. rewrite decide_False; [done|]. intros [-> _]. done.
  - rewrite decide_False; [done|]. intros [-> ?]. done.
Qed.

Lemma noise_voxel_rd (nx ny nz : Z) (g : gmap Z Z) (i j k q : Z) :
  rd (noise_voxel nx ny nz g (i, j, k)) q =
  if decide (q = idx ny nz i j k ∧ rd g q = 1)
  then (if has_neighbour g nx ny nz (-1) i j k then 1 else 0)
  else rd g q.
Proof.
  unfold noise_voxel.
  change (remove_noise_points g nx ny nz i j k)
    with (if has_neighbour g nx ny nz (-1) i j k then 1 else 0).
  destruct (Z.eqb_spec (rd g (idx ny nz i j k)) 1) as [E|E].
  - destruct (decide (idx ny nz i j k = q)) as [<-|Hne].
    + rewrite rd_wr_eq. by rewrite decide_True.
    + rewrite rd_wr_ne by done. rewrite decide_False; [done|]. intros [-> _]. done.
  - rewrite decide_False; [done|]. intros [-> ?]. done.
Qed.

Lemma filter_surface_rd (g : gmap Z Z) (nx ny nz i j k : Z) :
  in_grid nx ny nz i j k →
  rd (filter_surface g nx ny nz) (idx ny nz i j k) = swept nx ny nz 0 (-1) g i j k.
Proof.
  unfold filter_surface.
  apply (neighbour_sweep nx ny nz 0 (-1) (surface_voxel nx ny nz)); try done.
  apply surface_voxel_rd.
Qed.

Lemma filter_noise_points_rd (g : gmap Z Z) (nx ny nz i j k : Z) :
  in_grid nx ny nz i j k →
  rd (filter_noise_points g nx ny nz) (idx ny nz i j k) = swept nx ny nz (-1) 0 g i j k.
Proof.
  unfold filter_noise_points.
  apply (neighbour_sweep nx ny nz (-1) 0 (noise_voxel nx ny nz)); try done.
  apply noise_voxel_rd.
Qed.

(** X9.  Though [filter_surface] rewrites the grid in place, what it leaves at
    a voxel is decided by the grid it was given: a voxel tagged 1 stays 1 when
    one of the voxels around it carried 0, and becomes -1 when none did; every
    other voxel keeps its tag. *)
Theorem X9_filter_surface_by_input (g : gmap Z Z) (nx ny nz i j k : Z) :
  in_grid nx ny nz i j k →
  rd (filter_surface g nx ny nz) (idx ny nz i j k)
  = if rd g (idx ny nz i j k) =? 1
    then (if has_neighbour g nx ny nz 0 i j k then 1 else -1)
    else rd g (idx ny nz i j k).
Proof. apply filter_surface_rd. Qed.

Lemma X9_filter_surface_by_input_witness :
  in_grid 3 3 3 2 1 1
  ∧ rd (filter_surface half_bulk 3 3 3) (idx 3 3 2 1 1)
    = if rd half_bulk (idx 3 3 2 1 1) =? 1
      then (if has_neighbour half_bulk 3 3 3 0 2 1 1 then 1 else -1)
      else rd half_bulk (idx 3 3 2 1 1).
Proof.
  assert (H : in_grid 3 3 3 2 1 1) by (unfold in_grid; lia).
  split; [exact H|]. exact (X9_filter_surface_by_input half_bulk 3 3 3 2 1 1 H).
Defined.

(** X10.  After [filter_surface] every voxel of the grid tagged 1 has a voxel
    tagged 0 among those around it, and running [filter_surface] again changes
    no voxel of the grid. *)
Theorem X10_filter_surface_settled (g : gmap Z Z) (nx ny nz i j k : Z) :
  in_grid nx ny nz i j k →
  (rd (filter_surface g nx ny nz) (idx ny nz i j k) = 1 →
   has_neighbour (filter_surface g nx ny nz) nx ny nz 0 i j k = true)
  ∧ rd (filter_surface (filter_surface g nx ny nz) nx ny nz) (idx ny nz i j k)
    = rd (filter_surface g nx ny nz) (idx ny nz i j k).
Proof.
  intros Hin. unfold filter_surface. split.
  - apply (neighbour_sweep_candidates nx ny nz 0 (-1) (surface_voxel nx ny nz)); try done.
    apply surface_voxel_rd.
  - apply (neighbour_sweep_twice nx ny nz 0 (-1) (surface_voxel nx ny nz)); try done.
    apply surface_voxel_rd.
Qed.

Lemma X10_filter_surface_settled_witness :
  in_grid 3 3 3 1 1 1
  ∧ (rd (filter_surface half_bulk 3 3 3) (idx 3 3 1 1 1) = 1 →
     has_neighbour (filter_surface half_bulk 3 3 3) 3 3 3 0 1 1 1 = true)
  ∧ rd (filter_surface (filter_surface half_bulk 3 3 3) 3 3 3) (idx 3 3 1 1 1)
    = rd (filter_surface half_bulk 3 3 3) (idx 3 3 1 1 1).
Proof.
  assert (H : in_grid 3 3 3 1 1 1) by (unfold in_grid; lia).
  split; [exact H|]. exact (X10_filter_surface_settled half_bulk 3 3 3 1 1 1 H).
Defined.

(** X11.  Though [filter_noise_points] rewrites the grid in place, what it
    leaves at a voxel is decided by the grid it was given: a voxel tagged 1
    stays 1 when one of the voxels around it carried -1, and becomes 0 when
    none did; every other voxel keeps its tag. *)
Theorem X11_filter_noise_points_by_input (g : gmap Z Z) (nx ny nz i j k : Z) :
  in_grid nx ny nz i j k →
  rd (filter_noise_points g nx ny nz) (idx ny nz i j k)
  = if rd g (idx ny nz i j k) =? 1
    then (if has_neighbour g nx ny nz (-1) i j k then 1 else 0)
    else rd g (idx ny nz i j k).
Proof. apply filter_noise_points_rd. Qed.

Lemma X11_filter_noise_points_by_input_witness :
  in_grid 3 3 3 1 1 1
  ∧ rd (filter_noise_points (filter_surface half_bulk 3 3 3) 3 3 3) (idx 3 3 1 1 1)
    = if rd (filter_surface half_bulk 3 3 3) (idx 3 3 1 1 1) =? 1
      then (if has_neighbour (filter_surface half_bulk 3 3 3) 3 3 3 (-1) 1 1 1 then 1 else 0)
      else rd (filter_surface half_bulk 3 3 3) (idx 3 3 1 1 1).
Proof.
  assert (H : in_grid 3 3 3 1 1 1) by (unfold in_grid; lia).
  split; [exact H|].
  exact (X11_filter_noise_points_by_input (filter_surface half_bulk 3 3 3) 3 3 3 1 1 1 H).
Defined.

(** X12.  After [filter_noise_points] every voxel of the grid tagged 1 has a
    voxel tagged -1 among those around it, and running [filter_noise_points]
    again changes no voxel of the grid. *)
Theorem X12_filter_noise_points_settled (g : gmap Z Z) (nx ny nz i j k : Z) :
  in_grid nx ny nz i j k →
  (rd (filter_noise_points g nx ny nz) (idx ny nz i j k) = 1 →
   has_neighbour (filter_noise_points g nx ny nz) nx ny nz (-1) i j k = true)
  ∧ rd (filter_noise_points (filter_noise_points g nx ny nz) nx ny nz) (idx ny nz i j k)
    = rd (filter_noise_points g nx ny nz) (idx ny nz i j k).
Proof.
  intros Hin. unfold filter_noise_points. split.
  - apply (neighbour_sweep_candidates nx ny nz (-1) 0 (noise_voxel nx ny nz)); try done.
    apply noise_voxel_rd.
  - apply (neighbour_sweep_twice nx ny nz (-1) 0 (noise_voxel nx ny nz)); try done.
    apply noise_voxel_rd.
Qed.

Lemma X12_filter_noise_points_settled_witness :
  in_grid 3 3 3 1 1 1
  ∧ (rd (filter_noise_points (filter_surface half_bulk 3 3 3) 3 3 3) (idx 3 3 1 1 1) = 1 →
     has_neighbour (filter_noise_points (filter_surface half_bulk 3 3 3) 3 3 3)
                   3 3 3 (-1) 1 1 1 = true)
  ∧ rd (filter_noise_points (filter_noise_points (filter_surface half_bulk 3 3 3) 3 3 3) 3 3 3)
       (idx 3 3 1 1 1)
    = rd (filter_noise_points (filter_surface half_bulk 3 3 3) 3 3 3) (idx 3 3 1 1 1).
Proof.
  assert (H : in_grid 3 3 3 1 1 1) by (unfold in_grid; lia).
  split; [exact H|].
  exact (X12_filter_noise_points_settled (filter_surface half_bulk 3 3 3) 3 3 3 1 1 1 H).
Defined.

(** ** What the clustering writes *)

Lemma for_each_preserves {A S : Type} (I : S → Prop) (body : A → S → option S)
    (l : list A) (s s' : S) :
  I s → (∀ a s s', a ∈ l → I s → body a s = Some s' → I s') →
  for_each body l s = Some s' → I s'.
Proof.
  revert s. induction l as [|a l IH]; intros s Hs Hb; cbn [for_each].
  - intros [= <-]. done.
  - destruct (body a s) as [s1|] eqn:E; [|done]. apply IH.
    + eapply Hb; [left|done..].
    + intros b s2 s3 Hin. apply Hb. by right.
Qed.

Lemma clustered_refl (nx ny nz lo : Z) (g : gmap Z Z) (q : Z) : clustered nx ny nz lo g g q.
Proof. by left. Qed.

Lemma clustered_trans (nx ny nz lo : Z) (g g' g'' : gmap Z Z) (q : Z) :
  2 ≤ lo → clustered nx ny nz lo g g' q → clustered nx ny nz lo g' g'' q →
  clustered nx ny nz lo g g'' q.
Proof.
  unfold clustered. intros Hlo [E|(E1 & E2 & Hv)] [E'|(E1' & E2' & Hv')].
  - left. congruence.
  - right. rewrite <- E. done.
  - right. rewrite E'. done.
  - lia.
Qed.

Lemma clustered_weaken (nx ny nz lo lo' : Z) (g g' : gmap Z Z) (q : Z) :
  lo' ≤ lo → clustered nx ny nz lo g g' q → clustered nx ny nz lo' g g' q.
Proof. unfold clustered. intros Hlo [E|(E1 & E2 & Hv)]; [by left|]. right. split; [done|]. split; [lia|done]. Qed.

(** A cell that is not a candidate any more is left alone. *)
Lemma clustered_settled (nx ny nz lo : Z) (g g' : gmap Z Z) (q : Z) :
  clustered nx ny nz lo g g' q → rd g q ≠ 1 → rd g' q = rd g q.
Proof. intros [E|(E1 & _)]; done. Qed.

Lemma cube_in_grid (nx ny nz i j k x y z : Z) :
  in_grid nx ny nz i j k → on_face nx ny nz i j k = false → (x, y, z) ∈ cube i j k →
  in_grid nx ny nz x y z.
Proof.
  unfold in_grid, on_face, cube. rewrite !orb_false_iff, elem_of_box. lia.
Qed.

Lemma flood_and_fill_clustered (fuel : nat) (nx ny nz i j k tag : Z) (s s' : fstate) :
  2 ≤ tag → in_grid nx ny nz i j k →
  flood_and_fill fuel nx ny nz i j k tag s = Some s' →
  (∀ q, clustered nx ny nz tag (grid s) (grid s') q)
  ∧ (on_face nx ny nz i j k = false → rd (grid s) (idx ny nz i j k) = 1 → big s = false →
     rd (grid s') (idx ny nz i j k) = tag).
Proof.
  intros Htag. revert i j k s s'. induction fuel as [|fuel IH]; intros i j k s s' Hin; [done|].
  cbn [flood_and_fill]. destruct (on_face nx ny nz i j k) eqn:Hf.
  { intros [= <-]. split; [intros q; apply clustered_refl | done]. }
  destruct (Z.eqb_spec (rd (grid s) (idx ny nz i j k)) 1) as [E1|E1].
  2:{ intros [= <-]. split; [intros q; apply clustered_refl | done]. }
  destruct (big s) eqn:Hb; cbn [negb].
  { intros [= <-]. split; [intros q; apply clustered_refl | done]. }
  set (g1 := wr (grid s) (idx ny nz i j k) tag).
  assert (Hg1 : ∀ q, clustered nx ny nz tag (grid s) g1 q).
  { intros q. unfold g1. destruct (decide (idx ny nz i j k = q)) as [<-|Hne].
    - right. rewrite rd_wr_eq. split; [done|]. split; [lia|]. by exists i, j, k.
    - left. by apply rd_wr_ne. }
  assert (Hend : ∀ s', (∀ q, clustered nx ny nz tag g1 (grid s') q) →
            (∀ q, clustered nx ny nz tag (grid s) (grid s') q)
            ∧ (false = false → rd (grid s) (idx ny nz i j k) = 1 → false = false →
               rd (grid s') (idx ny nz i j k) = tag)).
  { intros s2 H2. split.
    - intros q. eapply clustered_trans; [done|apply Hg1|apply H2].
    - intros _ _ _. rewrite (clustered_settled _ _ _ _ _ _ _ (H2 _)); unfold g1;
        rewrite rd_wr_eq; [done|lia]. }
  destruct (negb (if points s + 1 =? 10000 then true else false)).
  - intros Hrun. apply Hend.
    revert Hrun. apply (for_each_preserves (λ s2, ∀ q, clustered nx ny nz tag g1 (grid s2) q)).
    + intros q. apply clustered_refl.
    + intros [[x y] z] s2 s3 Hv H2 Hcall q.
      eapply clustered_trans; [done|apply H2|].
      eapply IH; [|exact Hcall]. by eapply cube_in_grid.
  - intros [= <-]. apply Hend. intros q. apply clustered_refl.
Qed.

Lemma rescan_step_clustered (nx ny nz tag : Z) (v : Z * Z * Z) (sa sa' : fstate * Z) :
  2 ≤ tag → v ∈ box 0 nx 0 ny 0 nz →
  rescan_step nx ny nz tag v sa = Some sa' →
  ∀ q, clustered nx ny nz tag (grid (fst sa)) (grid (fst sa')) q.
Proof.
  destruct v as [[i j] k], sa as [s aux]. intros Htag Hv%elem_of_grid_box.
  unfold rescan_step. cbn [grid fst].
  destruct (if rd (grid s) (idx ny nz i j k) =? 1
            then check_unclustered_neighbours (grid s) nx ny nz i j k =? tag
            else false).
  - destruct (flood_and_fill depth nx ny nz i j k tag (FState (grid s) 0 false)) as [s1|] eqn:E;
      [|done].
    cbn [mbind option_bind]. intros [= <-]. cbn [fst].
    by destruct (flood_and_fill_clustered _ _ _ _ _ _ _ _ _ _ Htag Hv E) as [H _].
  - intros [= <-]. intros q. apply clustered_refl.
Qed.

Lemma while_big_clustered (turns : nat) (nx ny nz tag : Z) (sa sa' : fstate * Z) :
  2 ≤ tag → while_big turns nx ny nz tag sa = Some sa' →
  ∀ q, clustered nx ny nz tag (grid (fst sa)) (grid (fst sa')) q.
Proof.
  intros Htag. revert sa. induction turns as [|turns IH]; intros sa; [done|].
  cbn [while_big]. destruct (big (fst sa)).
  2:{ intros [= <-] q. apply clustered_refl. }
  destruct (rescan nx ny nz tag (fst sa)) as [sa1|] eqn:E; [|done].
  cbn [mbind option_bind]. intros Hw q.
  eapply clustered_trans; [done| |by apply IH].
  revert E q. unfold rescan.
  apply (for_each_preserves
           (λ sb, ∀ q, clustered nx ny nz tag (grid (fst sa)) (grid (fst sb)) q)).
  - intros q. apply clustered_refl.
  - intros v sb sc Hv Hsb Hstep q. eapply clustered_trans; [done|apply Hsb|].
    by eapply rescan_step_clustered.
Qed.

Lemma scan_step_clustered (nx ny nz i j k : Z) (c c' : cstate) :
  1 ≤ ctag c → in_grid nx ny nz i j k →
  scan_step nx ny nz (i, j, k) c = Some c' →
  (∀ q, clustered nx ny nz (ctag c + 1) (grid (cfs c)) (grid (cfs c')) q)
  ∧ ctag c ≤ ctag c'
  ∧ (big (cfs c) = false → big (cfs c') = false)
  ∧ (on_face nx ny nz i j k = false → big (cfs c) = false →
     rd (grid (cfs c')) (idx ny nz i j k) ≠ 1)
  ∧ (on_face nx ny nz i j k = false → big (cfs c) = false →
     rd (grid (cfs c)) (idx ny nz i j k) = 1 →
     rd (grid (cfs c')) (idx ny nz i j k) = ctag c + 1 ∧ ctag c' = ctag c + 1).
Proof.
  intros Ht Hin Hstep.
  destruct (decide (rd (grid (cfs c)) (idx ny nz i j k) = 1)) as [E|E].
  2:{ rewrite scan_step_skip in Hstep by done. injection Hstep as <-.
      split; [intros q; apply clustered_refl|]. split; [lia|]. done. }
  destruct (scan_step_returns nx ny nz i j k c Hin E) as (c1 & E1 & Hb1 & Ht1).
  rewrite E1 in Hstep. injection Hstep as <-.
  revert E1. unfold scan_step. rewrite E. cbn [Z.eqb Pos.eqb].
  destruct (flood_and_fill depth nx ny nz i j k (ctag c + 1)
              (FState (grid (cfs c)) 0 (big (cfs c)))) as [s1|] eqn:Ef; [|done].
  cbn [mbind option_bind].
  destruct (while_big 2 nx ny nz (ctag c + 1) (s1, points s1)) as [[s2 aux]|] eqn:Ew; [|done].
  cbn [mbind option_bind]. intros [= <-].
  assert (Htag : 2 ≤ ctag c + 1) by lia.
  destruct (flood_and_fill_clustered _ _ _ _ _ _ _ _ _ _ Htag Hin Ef) as [Hf1 Hf2].
  pose proof (while_big_clustered _ _ _ _ _ _ _ Htag Ew) as Hw.
  cbn [grid cfs ctag fst big] in *.
  assert (Hset : on_face nx ny nz i j k = false → big (cfs c) = false →
                 rd (grid s2) (idx ny nz i j k) = ctag c + 1).
  { intros Hof Hb. rewrite (clustered_settled _ _ _ _ _ _ _ (Hw _)); rewrite Hf2; (done || lia). }
  split; [intros q; eapply clustered_trans; [lia|apply Hf1|apply Hw]|].
  split; [lia|]. split; [done|]. split.
  - intros Hof Hb. rewrite Hset by done. lia.
  - intros Hof Hb _. by rewrite Hset.
Qed.

(** The scan over a part of the grid. *)
Lemma scan_clustered (nx ny nz : Z) (l : list (Z * Z * Z)) (c c' : cstate) :
  (∀ v, v ∈ l → v ∈ box 0 nx 0 ny 0 nz) → 1 ≤ ctag c → big (cfs c) = false →
  for_each (scan_step nx ny nz) l c = Some c' →
  (∀ q, clustered nx ny nz (ctag c + 1) (grid (cfs c)) (grid (cfs c')) q)
  ∧ ctag c ≤ ctag c'
  ∧ (∀ i j k, (i, j, k) ∈ l → on_face nx ny nz i j k = false →
       rd (grid (cfs c')) (idx ny nz i j k) ≠ 1).
Proof.
  revert c. induction l as [|[[a b] d] l IH]; intros c Hl Ht Hb; cbn [for_each].
  { intros [= <-]. split; [intros q; apply clustered_refl|]. split; [lia|].
    intros i j k Hin. by apply not_elem_of_nil in Hin. }
  destruct (scan_step nx ny nz (a, b, d) c) as [c1|] eqn:E; [|done]. intros Hrest.
  assert (Ha : in_grid nx ny nz a b d) by (apply elem_of_grid_box, Hl; left).
  destruct (scan_step_clustered nx ny nz a b d c c1 Ht Ha E) as (H1 & H2 & H3 & H4 & _).
  destruct (IH c1) as (H5 & H6 & H7); [intros v Hv; apply Hl; by right|lia|by apply H3|done|].
  split.
  - intros q. eapply clustered_trans; [lia|apply H1|].
    eapply clustered_weaken; [|apply H5]. lia.
  - split; [lia|]. intros i j k [[= -> -> ->]|Hin]%elem_of_cons Hof; [|by apply H7].
    rewrite (clustered_settled _ _ _ _ _ _ _ (H5 _)); by apply H4.
Qed.

Lemma scan_nothing (nx ny nz : Z) (l : list (Z * Z * Z)) (c : cstate) :
  (∀ i j k, (i, j, k) ∈ l → rd (grid (cfs c)) (idx ny nz i j k) ≠ 1) →
  for_each (scan_step nx ny nz) l c = Some c.
Proof.
  induction l as [|[[a b] d] l IH]; intros Hl; cbn [for_each]; [done|].
  rewrite scan_step_skip by (apply Hl; left). apply IH. intros i j k Hin. apply Hl. by right.
Qed.

Lemma tags_below2 (nx ny nz : Z) (g : gmap Z Z) :
  tags nx ny nz g (λ t, t < 2) → below2 nx ny nz g = true.
Proof.
  intros H. unfold below2. apply forallb_forall. intros [[i j] k] Hin.
  apply Z.ltb_lt, H. by apply elem_of_grid_box, list_elem_of_In.
Qed.

Lemma find_split {A : Type} (f : A → bool) (l : list A) (x : A) :
  find f l = Some x →
  ∃ pre suf, l = pre ++ x :: suf ∧ f x = true ∧ ∀ y, y ∈ pre → f y = false.
Proof.
  induction l as [|a l IH]; cbn [find]; [done|]. destruct (f a) eqn:E.
  - intros [= <-]. exists [], l. split; [done|]. split; [done|].
    intros y Hy. by apply not_elem_of_nil in Hy.
  - intros (pre & suf & -> & Hx & Hpre)%IH. exists (a :: pre), suf.
    split; [done|]. split; [done|]. intros y [->|Hy]%elem_of_cons; auto.
Qed.

Lemma first_candidate_split (g : gmap Z Z) (nx ny nz i j k : Z) :
  first_candidate g nx ny nz = Some (i, j, k) →
  ∃ pre suf, box 0 nx 0 ny 0 nz = pre ++ (i, j, k) :: suf
    ∧ rd g (idx ny nz i j k) = 1
    ∧ ∀ a b c, (a, b, c) ∈ pre → rd g (idx ny nz a b c) ≠ 1.
Proof.
  intros (pre & suf & E & Hx & Hpre)%find_split. exists pre, suf.
  split; [done|]. split; [lia|]. intros a b c Hin. specialize (Hpre _ Hin).
  cbv beta iota in Hpre. lia.
Qed.

Lemma first_candidate_none (g : gmap Z Z) (nx ny nz : Z) :
  first_candidate g nx ny nz = None → tags nx ny nz g (λ t, t ≠ 1).
Proof.
  unfold first_candidate. intros H i j k Hin.
  pose proof (find_none _ _ H (i, j, k)) as Hn. cbv beta iota in Hn.
  assert (In (i, j, k) (box 0 nx 0 ny 0 nz)) by (by apply list_elem_of_In, elem_of_grid_box).
  specialize (Hn ltac:(done)). lia.
Qed.

(** The scan from its start to the end of its first cluster, and on. *)
Lemma cluster_from_first_candidate (g : gmap Z Z) (nx ny nz i j k : Z) (c : cstate) :
  first_candidate g nx ny nz = Some (i, j, k) →
  cluster g nx ny nz = Some c →
  ∃ c1 suf, scan_step nx ny nz (i, j, k) (CState (FState g 0 false) 1) = Some c1
    ∧ for_each (scan_step nx ny nz) suf c1 = Some c
    ∧ in_grid nx ny nz i j k ∧ rd g (idx ny nz i j k) = 1
    ∧ (∀ v, v ∈ suf → v ∈ box 0 nx 0 ny 0 nz)
    ∧ ∀ a b d, in_grid nx ny nz a b d →
        (a, b, d) = (i, j, k) ∨ (a, b, d) ∈ suf ∨ rd g (idx ny nz a b d) ≠ 1.
Proof.
  intros (pre & suf & E & H1 & Hpre)%first_candidate_split. unfold cluster. rewrite E.
  rewrite for_each_app, scan_nothing by done. cbn [mbind option_bind for_each].
  destruct (scan_step nx ny nz (i, j, k) _) as [c1|] eqn:E1; [|done]. intros Hsuf.
  exists c1, suf. split; [done|]. split; [done|].
  assert (Hin : ∀ v, v ∈ (i, j, k) :: suf → v ∈ pre ++ (i, j, k) :: suf).
  { intros v Hv. apply elem_of_app. by right. }
  split; [apply elem_of_grid_box; rewrite E; apply Hin; left|]. split; [done|].
  split; [intros v Hv; apply Hin; by right|].
  intros a b d Hd%elem_of_grid_box. rewrite E in Hd.
  apply elem_of_app in Hd as [Hd|[Hd|Hd]%elem_of_cons]; auto.
Qed.

(** What [filter_enclosed_regions] does to the tags of a grid without
    cluster tags. *)
Lemma filter_enclosed_regions_candidates (g : gmap Z Z) (nx ny nz : Z) :
  tags nx ny nz g (λ t, t < 2) →
  ∃ g', filter_enclosed_regions g nx ny nz = Some g'
    ∧ ∀ i j k, in_grid nx ny nz i j k →
      (rd g (idx ny nz i j k) ≠ 1 → rd g' (idx ny nz i j k) = rd g (idx ny nz i j k))
      ∧ (on_face nx ny nz i j k = true → rd g' (idx ny nz i j k) = rd g (idx ny nz i j k))
      ∧ (rd g (idx ny nz i j k) = 1 →
         rd g' (idx ny nz i j k) = 1 ∨ rd g' (idx ny nz i j k) = 0).
Proof.
  intros Hg. unfold filter_enclosed_regions.
  destruct (cluster_returns g nx ny nz) as (c & Ec & _ & Ht & Hsame).
  rewrite Ec. cbn [mbind option_bind]. eexists. split; [done|]. intros i j k Hin.
  destruct (scan_clustered nx ny nz (box 0 nx 0 ny 0 nz) (CState (FState g 0 false) 1) c
              ltac:(done) ltac:(done) eq_refl Ec)
    as (Hc & _ & _).
  cbn [grid cfs ctag] in Hc. specialize (Hc (idx ny nz i j k)). specialize (Hg i j k Hin).
  cbv beta in Hg.
  assert (Hconv : rd (if ctag c >? 1 then convert_tags (grid (cfs c)) nx ny nz
                      else grid (cfs c)) (idx ny nz i j k)
                  = converted (rd (grid (cfs c)) (idx ny nz i j k))).
  { destruct (Z.gtb_spec (ctag c) 1); [by apply convert_tags_rd|].
    rewrite Hsame by lia. unfold converted.
    destruct (Z.eqb_spec (rd g (idx ny nz i j k)) 2); [lia|].
    destruct (Z.gtb_spec (rd g (idx ny nz i j k)) 2); [lia|done]. }
  rewrite Hconv. unfold converted.
  destruct Hc as [->|(E1 & E2 & a & b & d & Ha & Hf & Hidx)].
  - destruct (Z.eqb_spec (rd g (idx ny nz i j k)) 2); [lia|].
    destruct (Z.gtb_spec (rd g (idx ny nz i j k)) 2); [lia|]. tauto.
  - split; [done|]. split.
    + intros Hface. unfold in_grid in *. apply idx_inj in Hidx as (-> & -> & ->); [|lia..].
      congruence.
    + intros _. destruct (Z.eqb_spec (rd (grid (cfs c)) (idx ny nz i j k)) 2); [by left|].
      destruct (Z.gtb_spec (rd (grid (cfs c)) (idx ny nz i j k)) 2); [by right|lia].
Qed.

(** X13.  Given a grid without cluster tags, [filter_enclosed_regions] changes
    nothing but voxels tagged 1 that lie off the faces of the grid, and leaves
    each of them at 1 or at 0: a voxel with another tag keeps it, and so does
    every voxel on a face. *)
Theorem X13_filter_enclosed_regions_touches_candidates (g : gmap Z Z) (nx ny nz i j k : Z) :
  below2 nx ny nz g = true → in_grid nx ny nz i j k →
  ∃ g', filter_enclosed_regions g nx ny nz = Some g'
    ∧ (rd g (idx ny nz i j k) ≠ 1 → rd g' (idx ny nz i j k) = rd g (idx ny nz i j k))
    ∧ (on_face nx ny nz i j k = true → rd g' (idx ny nz i j k) = rd g (idx ny nz i j k))
    ∧ (rd g (idx ny nz i j k) = 1 →
       rd g' (idx ny nz i j k) = 1 ∨ rd g' (idx ny nz i j k) = 0).
Proof.
  intros Hg%below2_tags Hin.
  destruct (filter_enclosed_regions_candidates g nx ny nz Hg) as (g' & E & H).
  exists g'. split; [done|]. by apply H.
Qed.

Lemma X13_filter_enclosed_regions_touches_candidates_witness :
  below2 5 3 3 two_cells = true ∧ in_grid 5 3 3 3 1 1
  ∧ ∃ g', filter_enclosed_regions two_cells 5 3 3 = Some g'
    ∧ (rd two_cells (idx 3 3 3 1 1) ≠ 1 → rd g' (idx 3 3 3 1 1) = rd two_cells (idx 3 3 3 1 1))
    ∧ (on_face 5 3 3 3 1 1 = true → rd g' (idx 3 3 3 1 1) = rd two_cells (idx 3 3 3 1 1))
    ∧ (rd two_cells (idx 3 3 3 1 1) = 1 →
       rd g' (idx 3 3 3 1 1) = 1 ∨ rd g' (idx 3 3 3 1 1) = 0).
Proof.
  assert (H1 : below2 5 3 3 two_cells = true) by (vm_compute; reflexivity).
  assert (H2 : in_grid 5 3 3 3 1 1) by (unfold in_grid; lia).
  split; [exact H1|]. split; [exact H2|].
  exact (X13_filter_enclosed_regions_touches_candidates two_cells 5 3 3 3 1 1 H1 H2).
Defined.

(** X14.  When the first voxel tagged 1 that the scan comes to lies off the
    faces of the grid, [filter_enclosed_regions] keeps it: it opens cluster 2,
    and ends as 1. *)
Theorem X14_first_candidate_kept (g : gmap Z Z) (nx ny nz i j k : Z) :
  first_candidate g nx ny nz = Some (i, j, k) → on_face nx ny nz i j k = false →
  ∃ g', filter_enclosed_regions g nx ny nz = Some g' ∧ rd g' (idx ny nz i j k) = 1.
Proof.
  intros Hfirst Hof. unfold filter_enclosed_regions.
  destruct (cluster_returns g nx ny nz) as (c & Ec & _ & _).
  rewrite Ec. cbn [mbind option_bind]. eexists. split; [done|].
  destruct (cluster_from_first_candidate g nx ny nz i j k c Hfirst Ec)
    as (c1 & suf & E1 & Esuf & Hin & Hv & Hsuf & _).
  assert (H0 : 1 ≤ ctag (CState (FState g 0 false) 1)) by (cbn [ctag]; lia).
  destruct (scan_step_clustered nx ny nz i j k _ c1 H0 Hin E1)
    as (_ & _ & Hb1 & _ & Hset).
  destruct (Hset Hof eq_refl Hv) as [Hc1 Ht1]. cbn [ctag] in Hc1, Ht1.
  assert (H1 : 1 ≤ ctag c1) by lia.
  destruct (scan_clustered nx ny nz suf c1 c Hsuf H1 (Hb1 eq_refl) Esuf)
    as (Hc & Ht & _).
  assert (Hne : rd (grid (cfs c1)) (idx ny nz i j k) ≠ 1) by lia.
  pose proof (clustered_settled _ _ _ _ _ _ _ (Hc (idx ny nz i j k)) Hne) as Hend.
  destruct (Z.gtb_spec (ctag c) 1); [|lia].
  rewrite convert_tags_rd by done. rewrite Hend, Hc1. done.
Qed.

Lemma X14_first_candidate_kept_witness :
  first_candidate two_cells 5 3 3 = Some (1, 1, 1) ∧ on_face 5 3 3 1 1 1 = false
  ∧ ∃ g', filter_enclosed_regions two_cells 5 3 3 = Some g' ∧ rd g' (idx 3 3 1 1 1) = 1.
Proof.
  assert (H1 : first_candidate two_cells 5 3 3 = Some (1, 1, 1)) by (vm_compute; reflexivity).
  split; [exact H1|]. split; [reflexivity|].
  exact (X14_first_candidate_kept two_cells 5 3 3 1 1 1 H1 eq_refl).
Defined.



(** X16.  When the scan comes to no voxel tagged 1, [filter_enclosed_regions]
    returns the grid as it was given, cluster tags and all. *)
Theorem X16_no_candidate (g : gmap Z Z) (nx ny nz : Z) :
  first_candidate g nx ny nz = None → filter_enclosed_regions g nx ny nz = Some g.
Proof. intros H%first_candidate_none. by apply filter_enclosed_regions_no_candidate. Qed.

Lemma X16_no_candidate_witness :
  first_candidate (wr ∅ 13 5) 3 3 3 = None
  ∧ filter_enclosed_regions (wr ∅ 13 5) 3 3 3 = Some (wr ∅ 13 5).
Proof.
  assert (H : first_candidate (wr ∅ 13 5) 3 3 3 = None) by (vm_compute; reflexivity).
  split; [exact H|]. exact (X16_no_candidate (wr ∅ 13 5) 3 3 3 H).
Defined.

(** ** What one call of the marker writes *)

Lemma flood_and_fill_tag (fuel : nat) (nx ny nz i j k tag : Z) (s s' : fstate) :
  flood_and_fill fuel nx ny nz i j k tag s = Some s' →
  ∀ q, rd (grid s') q = rd (grid s) q ∨ rd (grid s') q = tag.
Proof.
  revert i j k s s'. induction fuel as [|fuel IH]; intros i j k s s'; [done|].
  cbn [flood_and_fill]. destruct (on_face nx ny nz i j k).
  { intros [= <-] q. by left. }
  destruct (if rd (grid s) (idx ny nz i j k) =? 1 then negb (big s) else false).
  2:{ intros [= <-] q. by left. }
  set (g1 := wr (grid s) (idx ny nz i j k) tag).
  assert (Hg1 : ∀ q, rd g1 q = rd (grid s) q ∨ rd g1 q = tag).
  { intros q. unfold g1. destruct (decide (idx ny nz i j k = q)) as [<-|Hne].
    - right. apply rd_wr_eq.
    - left. by apply rd_wr_ne. }
  destruct (negb (if points s + 1 =? 10000 then true else big s)).
  - apply (for_each_preserves (λ s2, ∀ q, rd (grid s2) q = rd (grid s) q ∨ rd (grid s2) q = tag)).
    + exact Hg1.
    + intros [[x y] z] s2 s3 _ H2 Hcall q.
      destruct (IH _ _ _ _ _ Hcall q) as [->|E]; [apply H2 | by right].
  - intros [= <-]. exact Hg1.
Qed.

(** X21.  A call of [flood_and_fill] as the scan makes it, with the counter
    at 0 and a cluster tag from 2 on, returns with at most 10 000 voxels
    counted; it writes nothing but that tag, and only over a 1 at a voxel of
    the grid off its faces; and the voxel it starts from gets the tag when it
    is such a voxel. *)
Theorem X21_flood_and_fill_writes (g : gmap Z Z) (nx ny nz i j k tag : Z) :
  2 ≤ tag → in_grid nx ny nz i j k →
  ∃ s', flood_and_fill depth nx ny nz i j k tag (FState g 0 false) = Some s'
    ∧ 0 ≤ points s' ≤ 10000
    ∧ (∀ q, rd (grid s') q = rd g q
            ∨ (rd g q = 1 ∧ rd (grid s') q = tag
               ∧ ∃ a b d, in_grid nx ny nz a b d ∧ on_face nx ny nz a b d = false
                          ∧ q = idx ny nz a b d))
    ∧ (on_face nx ny nz i j k = false → rd g (idx ny nz i j k) = 1 →
       rd (grid s') (idx ny nz i j k) = tag).
Proof.
  intros Htag Hin.
  destruct (flood_and_fill_returns nx ny nz i j k tag g false) as (s' & E & Hp & _).
  exists s'. split; [done|]. split; [done|].
  destruct (flood_and_fill_clustered _ _ _ _ _ _ _ _ _ _ Htag Hin E) as [Hc Hs].
  cbn [grid big] in Hc, Hs. split; [|by auto].
  intros q. destruct (Hc q) as [Eq|(E1 & _ & Hv)]; [by left|].
  destruct (flood_and_fill_tag _ _ _ _ _ _ _ _ _ _ E q) as [Eq|Eq]; [by left|]. by right.
Qed.

Lemma X21_flood_and_fill_writes_witness :
  2 ≤ 2 ∧ in_grid 5 3 3 1 1 1
  ∧ ∃ s', flood_and_fill depth 5 3 3 1 1 1 2 (FState two_cells 0 false) = Some s'
    ∧ 0 ≤ points s' ≤ 10000
    ∧ (∀ q, rd (grid s') q = rd two_cells q
            ∨ (rd two_cells q = 1 ∧ rd (grid s') q = 2
               ∧ ∃ a b d, in_grid 5 3 3 a b d ∧ on_face 5 3 3 a b d = false
                          ∧ q = idx 3 3 a b d))
    ∧ (on_face 5 3 3 1 1 1 = false → rd two_cells (idx 3 3 1 1 1) = 1 →
       rd (grid s') (idx 3 3 1 1 1) = 2).
Proof.
  assert (H1 : 2 ≤ 2) by lia.
  assert (H2 : in_grid 5 3 3 1 1 1) by (unfold in_grid; lia).
  split; [exact H1|]. split; [exact H2|].
  exact (X21_flood_and_fill_writes two_cells 5 3 3 1 1 1 2 H1 H2).
Defined.

(** ** The sorted list of [insert] *)

Lemma insert_after_perm (l : list Z) (pos : Z) : insert_after l pos ≡ₚ pos :: l.
Proof.
  induction l as [|n l IH]; cbn [insert_after]; [done|].
  destruct (n <? pos); [|done]. rewrite IH. apply Permutation_swap.
Qed.

Lemma insert_perm (l : list Z) (pos : Z) : insert l pos ≡ₚ pos :: l.
Proof.
  destruct l as [|h l]; cbn [insert]; [done|].
  destruct (h >=? pos); [done|]. rewrite insert_after_perm. apply Permutation_swap.
Qed.

Lemma insert_after_sorted (l : list Z) (pos : Z) :
  StronglySorted Z.le l → StronglySorted Z.le (insert_after l pos).
Proof.
  induction 1 as [|n l Hl IH Hn]; cbn [insert_after].
  { repeat constructor. }
  destruct (Z.ltb_spec n pos).
  - constructor; [done|]. rewrite insert_after_perm. constructor; [lia|done].
  - constructor; [by constructor|]. constructor; [done|].
    eapply Forall_impl; [exact Hn|]. intros a Ha. cbv beta in Ha. lia.
Qed.

Lemma insert_sorted (l : list Z) (pos : Z) :
  StronglySorted Z.le l → StronglySorted Z.le (insert l pos).
Proof.
  intros Hl. destruct Hl as [|h l Hl Hh]; cbn [insert].
  { repeat constructor. }
  destruct (Z.geb_spec h pos).
  - constructor; [by constructor|]. constructor; [lia|].
    eapply Forall_impl; [exact Hh|]. intros a Ha. cbv beta in Ha. lia.
  - constructor; [by apply insert_after_sorted|].
    rewrite insert_after_perm. constructor; [lia|done].
Qed.

(** X17.  [insert] keeps a list in ascending order: put into a list sorted
    by position, however it came about and duplicates included, the new node
    leaves it sorted, and the list holds the new position besides the
    positions it held, each as often as before. *)
Theorem X17_insert_keeps_order (head : list Z) (pos : Z) :
  StronglySorted Z.le head →
  StronglySorted Z.le (insert head pos) ∧ insert head pos ≡ₚ pos :: head.
Proof. intros H. split; [by apply insert_sorted | apply insert_perm]. Qed.

Lemma X17_insert_keeps_order_witness :
  StronglySorted Z.le [1; 3; 3; 5]
  ∧ StronglySorted Z.le (insert [1; 3; 3; 5] 3) ∧ insert [1; 3; 3; 5] 3 ≡ₚ 3 :: [1; 3; 3; 5].
Proof.
  assert (H : StronglySorted Z.le [1; 3; 3; 5]) by (repeat constructor; lia).
  split; [exact H|]. exact (X17_insert_keeps_order [1; 3; 3; 5] 3 H).
Defined.

(** ** The grid [_surface] returns *)

Lemma carved_grid_tags (g : gmap Z Z) (nx ny nz natoms : Z)
    (atoms reference sincos : list float) (step probe : float) (is_ses : bool) :
  tags nx ny nz (carved_grid g nx ny nz atoms natoms reference sincos step probe is_ses)
       (λ t, t = 0 ∨ t = 1).
Proof.
  intros i j k Hin. cbv beta.
  assert (H1 : rd (fill (igrid g (nx * ny * nz)) nx ny nz atoms natoms reference sincos
                        step probe) (idx ny nz i j k) = 0
               ∨ rd (fill (igrid g (nx * ny * nz)) nx ny nz atoms natoms reference sincos
                          step probe) (idx ny nz i j k) = 1).
  { unfold fill. rewrite fill_atoms_rd. destruct (existsb _ _); [by left|].
    right. by apply igrid_tags. }
  unfold carved_grid. destruct is_ses; [|done].
  destruct (ses_rd (fill (igrid g (nx * ny * nz)) nx ny nz atoms natoms reference sincos
                         step probe) nx ny nz i j k step probe Hin) as (_ & Hk & H0).
  cbv zeta in Hk, H0.
  destruct H1 as [E|E]; [by apply H0|]. right. rewrite Hk by lia. by rewrite E.
Qed.

Lemma swept_tags (nx ny nz T B : Z) (g : gmap Z Z) (i j k : Z) :
  (rd g (idx ny nz i j k) ≠ 1 ∧ swept nx ny nz T B g i j k = rd g (idx ny nz i j k))
  ∨ (rd g (idx ny nz i j k) = 1 ∧ has_neighbour g nx ny nz T i j k = true
     ∧ swept nx ny nz T B g i j k = 1)
  ∨ (rd g (idx ny nz i j k) = 1 ∧ has_neighbour g nx ny nz T i j k = false
     ∧ swept nx ny nz T B g i j k = B).
Proof.
  unfold swept. destruct (Z.eqb_spec (rd g (idx ny nz i j k)) 1) as [E|E]; [|by left].
  destruct (has_neighbour g nx ny nz T i j k); right; [by left | by right].
Qed.

(** The stages of [_surface] after the carving, one voxel at a time. *)
Lemma _surface_stages (g : gmap Z Z) (nx ny nz natoms nthreads : Z)
    (atoms reference sincos : list float) (step probe : float) (is_ses : bool) :
  let g2 := carved_grid g nx ny nz atoms natoms reference sincos step probe is_ses in
  ∃ g4, filter_enclosed_regions (filter_surface g2 nx ny nz) nx ny nz = Some g4
    ∧ _surface g (nx * ny * nz) nx ny nz atoms natoms reference sincos step probe
               is_ses nthreads = Some (filter_noise_points g4 nx ny nz)
    ∧ ∀ i j k, in_grid nx ny nz i j k →
        let t2 := rd g2 (idx ny nz i j k) in
        let t3 := rd (filter_surface g2 nx ny nz) (idx ny nz i j k) in
        let t4 := rd g4 (idx ny nz i j k) in
        let t5 := rd (filter_noise_points g4 nx ny nz) (idx ny nz i j k) in
        (t2 = 0 ∧ t3 = 0 ∧ t4 = 0 ∧ t5 = 0)
        ∨ (t2 = 1 ∧ has_neighbour g2 nx ny nz 0 i j k = false
           ∧ t3 = -1 ∧ t4 = -1 ∧ t5 = -1)
        ∨ (t2 = 1 ∧ has_neighbour g2 nx ny nz 0 i j k = true
           ∧ t3 = 1 ∧ (t4 = 0 ∨ t4 = 1) ∧ (t5 = 0 ∨ t5 = 1)).
Proof.
  intros g2.
  assert (H2 : tags nx ny nz g2 (λ t, t = 0 ∨ t = 1)) by apply carved_grid_tags.
  assert (H3 : tags nx ny nz (filter_surface g2 nx ny nz) (λ t, t < 2)).
  { intros i j k Hin. cbv beta. rewrite filter_surface_rd by done.
    specialize (H2 i j k Hin). cbv beta in H2.
    destruct (swept_tags nx ny nz 0 (-1) g2 i j k) as [[_ ->]|[(_ & _ & ->)|(_ & _ & ->)]]; lia. }
  destruct (filter_enclosed_regions_candidates _ nx ny nz H3) as (g4 & E4 & H4).
  exists g4. split; [done|]. split.
  { unfold _surface. fold (carved_grid g nx ny nz atoms natoms reference sincos step probe is_ses).
    fold g2. rewrite E4. done. }
  intros i j k Hin. cbv zeta.
  specialize (H2 i j k Hin). cbv beta in H2.
  destruct (H4 i j k Hin) as (Hk & _ & H1).
  rewrite filter_noise_points_rd by done.
  rewrite filter_surface_rd in Hk, H1 |- * by done.
  pose proof (swept_tags nx ny nz 0 (-1) g2 i j k) as S3.
  pose proof (swept_tags nx ny nz (-1) 0 g4 i j k) as S5.
  destruct (has_neighbour g2 nx ny nz 0 i j k); lia.
Qed.

(** X18.  With [size = nx * ny * nz], a grid that [_surface] returns has
    voxels that carry -1, 0 or 1 and nothing else, whatever the grid held
    before and whatever the atoms are; and every voxel left at 1 has a
    neighbour at -1 within the grid. *)
Theorem X18_surface_tags (g g' : gmap Z Z) (nx ny nz natoms nthreads : Z)
    (atoms reference sincos : list float) (step probe : float) (is_ses : bool) :
  _surface g (nx * ny * nz) nx ny nz atoms natoms reference sincos step probe
           is_ses nthreads = Some g' →
  ∀ i j k, in_grid nx ny nz i j k →
    (rd g' (idx ny nz i j k) = -1 ∨ rd g' (idx ny nz i j k) = 0
     ∨ rd g' (idx ny nz i j k) = 1)
    ∧ (rd g' (idx ny nz i j k) = 1 → has_neighbour g' nx ny nz (-1) i j k = true).
Proof.
  destruct (_surface_stages g nx ny nz natoms nthreads atoms reference sincos step probe is_ses)
    as (g4 & _ & E & H).
  rewrite E. intros [= <-] i j k Hin. split.
  - specialize (H i j k Hin). cbv zeta in H. lia.
  - unfold filter_noise_points.
    apply (neighbour_sweep_candidates nx ny nz (-1) 0 (noise_voxel nx ny nz)); try done.
    apply noise_voxel_rd.
Qed.

Lemma X18_surface_tags_witness :
  ∃ g', _surface ∅ (3 * 3 * 3) 3 3 3 corner_atom 1 origin no_rotation 1 0 false 1 = Some g'
    ∧ ∀ i j k, in_grid 3 3 3 i j k →
        (rd g' (idx 3 3 i j k) = -1 ∨ rd g' (idx 3 3 i j k) = 0 ∨ rd g' (idx 3 3 i j k) = 1)
        ∧ (rd g' (idx 3 3 i j k) = 1 → has_neighbour g' 3 3 3 (-1) i j k = true).
Proof.
  destruct (_surface ∅ (3 * 3 * 3) 3 3 3 corner_atom 1 origin no_rotation 1 0 false 1)
    as [g'|] eqn:E.
  - exists g'. split; [reflexivity|].
    exact (X18_surface_tags ∅ g' 3 3 3 1 1 corner_atom origin no_rotation 1 0 false E).
  - vm_compute in E. discriminate E.
Defined.

(** X19.  What the later stages of [_surface] make of the grid that the
    carving (and [ses], when asked for) leaves, in a grid that [_surface]
    returns: a voxel at 0 stays 0; a voxel at 1 with no neighbour at 0
    becomes -1, and these are all the voxels that end at -1; a voxel at 1
    with a neighbour at 0 ends at 1 or at 0. *)
Theorem X19_surface_by_carved_grid (g g' : gmap Z Z) (nx ny nz natoms nthreads : Z)
    (atoms reference sincos : list float) (step probe : float) (is_ses : bool) :
  _surface g (nx * ny * nz) nx ny nz atoms natoms reference sincos step probe
           is_ses nthreads = Some g' →
  let g2 := carved_grid g nx ny nz atoms natoms reference sincos step probe is_ses in
  ∀ i j k, in_grid nx ny nz i j k →
    (rd g2 (idx ny nz i j k) = 0 → rd g' (idx ny nz i j k) = 0)
    ∧ (rd g' (idx ny nz i j k) = -1 ↔
       rd g2 (idx ny nz i j k) = 1 ∧ has_neighbour g2 nx ny nz 0 i j k = false)
    ∧ (rd g2 (idx ny nz i j k) = 1 → has_neighbour g2 nx ny nz 0 i j k = true →
       rd g' (idx ny nz i j k) = 1 ∨ rd g' (idx ny nz i j k) = 0).
Proof.
  destruct (_surface_stages g nx ny nz natoms nthreads atoms reference sincos step probe is_ses)
    as (g4 & _ & E & H).
  rewrite E. intros [= <-] g2 i j k Hin.
  specialize (H i j k Hin). cbv zeta in H. fold g2 in H.
  destruct (has_neighbour g2 nx ny nz 0 i j k); split; try split; intros; try split;
    try discriminate; lia.
Qed.

Lemma X19_surface_by_carved_grid_witness :
  ∃ g', _surface ∅ (3 * 3 * 3) 3 3 3 corner_atom 1 origin no_rotation 1 0 false 1 = Some g'
    ∧ let g2 := carved_grid ∅ 3 3 3 corner_atom 1 origin no_rotation 1 0 false in
      ∀ i j k, in_grid 3 3 3 i j k →
        (rd g2 (idx 3 3 i j k) = 0 → rd g' (idx 3 3 i j k) = 0)
        ∧ (rd g' (idx 3 3 i j k) = -1 ↔
           rd g2 (idx 3 3 i j k) = 1 ∧ has_neighbour g2 3 3 3 0 i j k = false)
        ∧ (rd g2 (idx 3 3 i j k) = 1 → has_neighbour g2 3 3 3 0 i j k = true →
           rd g' (idx 3 3 i j k) = 1 ∨ rd g' (idx 3 3 i j k) = 0).
Proof.
  destruct (_surface ∅ (3 * 3 * 3) 3 3 3 corner_atom 1 origin no_rotation 1 0 false 1)
    as [g'|] eqn:E.
  - exists g'. split; [reflexivity|].
    exact (X19_surface_by_carved_grid ∅ g' 3 3 3 1 1 corner_atom origin no_rotation 1 0
             false E).
  - vm_compute in E. discriminate E.
Defined.

(** ** The grid as [_interface] reads it *)

Lemma touches_same_candidates (g h : gmap Z Z) (nx ny nz : Z)
    (atoms reference sincos : list float) (step probe : float) (atom : Z) :
  same_candidates nx ny nz g h →
  touches g nx ny nz atoms reference sincos step probe atom
  = touches h nx ny nz atoms reference sincos step probe atom.
Proof.
  intros Hs. unfold touches.
  destruct (grid_coords atoms reference sincos step atom) as [[x y] z].
  generalize (around x y z (reach atoms step probe atom)) as l.
  induction l as [|[[i j] k] l IH]; cbn [existsb]; [done|]. rewrite IH. f_equal.
  unfold touching_voxel.
  destruct ((i <? nx) && (i >? 0) && (j <? ny) && (j >? 0) && (k <? nz) && (k >? 0)) eqn:E;
    [|done].
  rewrite !andb_true_iff in E. cbn [andb]. f_equal.
  specialize (Hs i j k ltac:(lia) ltac:(lia) ltac:(lia)).
  destruct (Z.eqb_spec (rd g (idx ny nz i j k)) 1), (Z.eqb_spec (rd h (idx ny nz i j k)) 1);
    tauto.
Qed.

(** X20.  [_interface] reads the grid only to ask whether a voxel with all
    three indices at least 1 carries 1: two grids that agree on that give the
    same array, whatever else they hold. *)
Theorem X20_interface_reads_candidates (g h : gmap Z Z) (nx ny nz natoms nthreads : Z)
    (pdb : list string) (atoms reference sincos : list float) (step probe : float) :
  same_candidates nx ny nz g h →
  _interface g nx ny nz pdb atoms natoms reference sincos step probe nthreads
  = _interface h nx ny nz pdb atoms natoms reference sincos step probe nthreads.
Proof.
  intros Hs. rewrite !_interface_spec. f_equal. f_equal.
  destruct (interface_scan_reslist g nx ny nz atoms reference sincos step probe natoms)
    as [-> _].
  destruct (interface_scan_reslist h nx ny nz atoms reference sincos step probe natoms)
    as [-> _].
  apply list_filter_iff. intros a. by rewrite (touches_same_candidates g h).
Qed.

Lemma X20_interface_reads_candidates_witness :
  same_candidates 3 3 3 corner_cell ∅
  ∧ _interface corner_cell 3 3 3 ["R1"%string] corner_atom 1 origin no_rotation 1 0 1
    = _interface ∅ 3 3 3 ["R1"%string] corner_atom 1 origin no_rotation 1 0 1.
Proof.
  assert (H : same_candidates 3 3 3 corner_cell ∅).
  { intros i j k Hi Hj Hk. unfold corner_cell. rewrite rd_wr_ne; [done|]. unfold idx. lia. }
  split; [exact H|].
  exact (X20_interface_reads_candidates corner_cell ∅ 3 3 3 1 1 ["R1"%string] corner_atom
           origin no_rotation 1 0 H).
Defined.
